(** * mtx: guards around a value, a map and a slice

    A shallow embedding of [internal/mtx/mtx.go].  One goroutine is modelled:
    every method is a state transformer over the guard and the part of the
    program its callback can touch, and the calls on the embedded
    [sync.RWMutex] are kept, together with a history of them, so that
    "under the lock" and "after the lock is released" are statements about
    the model. *)

From stdpp Require Import gmap strings list fin_maps.
From Stdlib Require Import ZArith Lia.

Local Open Scope Z_scope.
Local Open Scope nat_scope.

(** ** How a Go call ends *)

(** The run-time panics the modelled code can raise, and [UserPanic] for a
    panic raised by a caller's callback. *)
Inductive panic_value : Type :=
| IndexOutOfRange (i : Z) (length : nat)
| SliceBoundsOutOfRange (i : Z) (bound : nat)
| NilMapAssign
| UserPanic (msg : string).

(** A call returns, unwinds with a panic (deferred calls still run), parks
    the goroutine for ever on a mutex, or stops the process with a fatal
    run-time error (no deferred call runs). *)
Inductive outcome (A : Type) : Type :=
| Ret (a : A)
| Panic (p : panic_value)
| Blocked
| Fatal (msg : string).
Arguments Ret {A} a.
Arguments Panic {A} p.
Arguments Blocked {A}.
Arguments Fatal {A} msg.

(** Go's [error]: [nil] or a value carrying a message. *)
Definition error : Type := option string.
Definition nil_error : error := None.

(** Statements run in a state [S]; the state is kept on every exit path. *)
Definition M (S A : Type) : Type := S -> outcome A * S.

Definition ret {S A} (a : A) : M S A := fun s => (Ret a, s).

Definition bind {S A B} (m : M S A) (f : A -> M S B) : M S B :=
  fun s =>
    match m s with
    | (Ret a, s') => f a s'
    | (Panic p, s') => (Panic p, s')
    | (Blocked, s') => (Blocked, s')
    | (Fatal msg, s') => (Fatal msg, s')
    end.

Notation "x <- m ;; k" := (bind m (fun x => k))
  (at level 63, m at next level, right associativity).
Notation "m ;;; k" := (bind m (fun _ => k))
  (at level 63, right associativity).

Definition get {S} : M S S := fun s => (Ret s, s).
Definition put {S} (s : S) : M S unit := fun _ => (Ret tt, s).
(** An expression that may panic but has no effect on the state. *)
Definition eval {S A} (o : outcome A) : M S A := fun s => (o, s).

(** [defer d; body]: [d] runs when [body] returns or panics, and the result
    of [body] is what the caller sees unless [d] itself does not return. *)
Definition defer {S A} (d : M S unit) (body : M S A) : M S A :=
  fun s =>
    match body s with
    | (Ret a, s') =>
        match d s' with
        | (Ret _, s'') => (Ret a, s'')
        | (Panic q, s'') => (Panic q, s'')
        | (Blocked, s'') => (Blocked, s'')
        | (Fatal msg, s'') => (Fatal msg, s'')
        end
    | (Panic p, s') =>
        match d s' with
        | (Ret _, s'') => (Panic p, s'')
        | (Panic q, s'') => (Panic q, s'')
        | (Blocked, s'') => (Blocked, s'')
        | (Fatal msg, s'') => (Fatal msg, s'')
        end
    | (Blocked, s') => (Blocked, s')
    | (Fatal msg, s') => (Fatal msg, s')
    end.

(** A function with named results: the results start at their zero values
    [init], the closures of the body assign them, and the bare [return]
    hands back what they hold. *)
Definition named_results {G W L} (init : L) (body : M (G * (W * L)) unit)
  : M (G * W) L :=
  fun '(g, w) =>
    match body (g, (w, init)) with
    | (Ret _, (g', (w', l))) => (Ret l, (g', w'))
    | (Panic p, (g', (w', _))) => (Panic p, (g', w'))
    | (Blocked, (g', (w', _))) => (Blocked, (g', w'))
    | (Fatal msg, (g', (w', _))) => (Fatal msg, (g', w'))
    end.

(** ** sync.RWMutex, as one goroutine sees it *)

Inductive lock_event : Type := EvLock | EvUnlock | EvRLock | EvRUnlock.

Record RWMutex : Type := mkRWMutex {
  writer : bool;
  readers : nat;
  history : list lock_event
}.

Definition zeroRWMutex : RWMutex := mkRWMutex false 0 [].

Definition Lock (l : RWMutex) : outcome unit * RWMutex :=
  if writer l then (Blocked, l)
  else match readers l with
       | O => (Ret tt, mkRWMutex true 0 (history l ++ [EvLock]))
       | S _ => (Blocked, l)
       end.

Definition Unlock (l : RWMutex) : outcome unit * RWMutex :=
  if writer l
  then (Ret tt, mkRWMutex false (readers l) (history l ++ [EvUnlock]))
  else (Fatal "sync: Unlock of unlocked RWMutex", l).

Definition RLock (l : RWMutex) : outcome unit * RWMutex :=
  if writer l then (Blocked, l)
  else (Ret tt, mkRWMutex false (S (readers l)) (history l ++ [EvRLock])).

Definition RUnlock (l : RWMutex) : outcome unit * RWMutex :=
  match readers l with
  | O => (Fatal "sync: RUnlock of unlocked RWMutex", l)
  | S n => (Ret tt, mkRWMutex (writer l) n (history l ++ [EvRUnlock]))
  end.

(** Nobody holds the mutex. *)
Definition unlocked (l : RWMutex) : Prop := writer l = false /\ readers l = 0.

(** The mutex once the calls [evs] have been made and nobody holds it. *)
Definition released (l : RWMutex) (evs : list lock_event) : RWMutex :=
  mkRWMutex false 0 (history l ++ evs).

(** The mutex while the one goroutine holds it for writing, for reading. *)
Definition write_held (l : RWMutex) : RWMutex :=
  mkRWMutex true 0 (history l ++ [EvLock]).
Definition read_held (l : RWMutex) : RWMutex :=
  mkRWMutex false 1 (history l ++ [EvRLock]).

(** ** RWMtx[T] *)

Module RWMtx.

Record t (T : Type) : Type := mk { mu : RWMutex; v : T }.
Arguments mk {T} mu v.
Arguments mu {T} _.
Arguments v {T} _.

Section Methods.
(** [T] is the guarded type; [W] is whatever else the caller's code can
    reach (its heap, the variables its closures capture). *)
Context {T W : Type}.

Definition on_mu (f : RWMutex -> outcome unit * RWMutex) : M (t T * W) unit :=
  fun '(m, w) => let (r, l) := f (mu m) in (r, (mk l (v m), w)).

Definition NewRWMtx (x : T) : t T := mk zeroRWMutex x.

Definition Get : M (t T * W) T :=
  on_mu RLock ;;;
  defer (on_mu RUnlock) (fun '(m, w) => (Ret (v m), (m, w))).

Definition Set_ (x : T) : M (t T * W) unit :=
  on_mu Lock ;;;
  defer (on_mu Unlock) (fun '(m, w) => (Ret tt, (mk (mu m) x, w))).

(** [clb(m.v)]: the callback receives the value and runs in [W]. *)
Definition call_value {A} (clb : T -> M W A) : M (t T * W) A :=
  fun '(m, w) => let (r, w') := clb (v m) w in (r, (m, w')).

(** [clb(&m.v)]: the callback receives the address of the field, that is,
    it reads and writes the field and [W] while it runs.  A callback that
    keeps the address and uses it after it has returned is outside what
    is modelled. *)
Definition call_pointer {A} (clb : M (T * W) A) : M (t T * W) A :=
  fun '(m, w) => let '(r, (x, w')) := clb (v m, w) in (r, (mk (mu m) x, w')).

Definition RWithE (clb : T -> M W error) : M (t T * W) error :=
  on_mu RLock ;;;
  defer (on_mu RUnlock) (call_value clb).

Definition RWith (clb : T -> M W unit) : M (t T * W) unit :=
  RWithE (fun tx => clb tx ;;; ret nil_error) ;;; ret tt.

Definition WithE (clb : M (T * W) error) : M (t T * W) error :=
  on_mu Lock ;;;
  defer (on_mu Unlock) (call_pointer clb).

Definition With (clb : M (T * W) unit) : M (t T * W) unit :=
  WithE (clb ;;; ret nil_error) ;;; ret tt.

(** The scoped operations as the specification words them: take the lock,
    run the callback on the value, release the lock on every exit path. *)
Definition ReadScoped (fn : T -> M W unit) : M (t T * W) unit :=
  on_mu RLock ;;;
  defer (on_mu RUnlock) (call_value fn).

Definition WriteScoped (fn : M (T * W) unit) : M (t T * W) unit :=
  on_mu Lock ;;;
  defer (on_mu Unlock) (call_pointer fn).

(** Drop the result of a call, keep how it ended. *)
Definition discard {A} (r : outcome A) : outcome unit :=
  match r with
  | Ret _ => Ret tt
  | Panic p => Panic p
  | Blocked => Blocked
  | Fatal msg => Fatal msg
  end.

End Methods.
End RWMtx.
(** ** Go maps: references into a heap of map objects *)

(** A map value is [nil] or the address of a map object; copying the value
    copies the address, never the object. *)
Abbreviation loc := positive (only parsing).
Abbreviation mapref := (option positive) (only parsing).

(** The key types are the [comparable] ones whose [==] cannot panic (no
    interface holding a slice, a map or a function).  [K] stands for the
    key values up to [==], and [self_equal k] tells whether [k == k]: it
    fails for a floating-point NaN and for every key built from one. *)
Class Comparable (K : Type) `{Countable K} : Type :=
  self_equal : K -> bool.

(** A map object: the entries under keys equal to themselves, one per key,
    and the entries stored under keys that are not, which no lookup finds
    and no [delete] removes, in the order they were stored. *)
Record gomap (K V : Type) `{Countable K} : Type := mkMap {
  keyed : gmap K V;
  loose : list (K * V)
}.
Arguments mkMap {K V _ _} keyed loose.
Arguments keyed {K V _ _} _.
Arguments loose {K V _ _} _.

Section GoMap.
Context {K : Type} `{Countable K} `{!Comparable K} {V : Type} (zeroV : V).

Definition empty_map : gomap K V := mkMap ∅ [].

(** The entry a lookup of [k] finds. *)
Definition map_find (o : gomap K V) (k : K) : option V :=
  if self_equal k then keyed o !! k else None.

(** The object after [k] is assigned [x]. *)
Definition map_put (o : gomap K V) (k : K) (x : V) : gomap K V :=
  if self_equal k
  then mkMap (<[k := x]> (keyed o)) (loose o)
  else mkMap (keyed o) (loose o ++ [(k, x)]).

(** The object after [k] is deleted. *)
Definition map_drop (o : gomap K V) (k : K) : gomap K V :=
  if self_equal k then mkMap (delete k (keyed o)) (loose o) else o.

(** The number of entries. *)
Definition map_count (o : gomap K V) : nat :=
  size (keyed o) + length (loose o).

(** [make(map[K]V)] *)
Definition map_make (h : gmap loc (gomap K V)) : mapref * gmap loc (gomap K V) :=
  let l := fresh (dom h) in (Some l, <[l := empty_map]> h).

(** The object a map value stands for; a nil map reads as empty. *)
Definition map_deref (h : gmap loc (gomap K V)) (m : mapref) : gomap K V :=
  match m with
  | None => empty_map
  | Some l => default empty_map (h !! l)
  end.

(** [x, ok = m[k]] *)
Definition map_index (h : gmap loc (gomap K V)) (m : mapref) (k : K) : V * bool :=
  match map_find (map_deref h m) k with
  | Some x => (x, true)
  | None => (zeroV, false)
  end.

(** [m[k] = x] *)
Definition map_assign (m : mapref) (k : K) (x : V) : M (gmap loc (gomap K V)) unit :=
  fun h =>
    match m with
    | None => (Panic NilMapAssign, h)
    | Some l => (Ret tt, <[l := map_put (map_deref h m) k x]> h)
    end.

(** [delete(m, k)] *)
Definition map_delete (m : mapref) (k : K) (h : gmap loc (gomap K V))
  : gmap loc (gomap K V) :=
  match m with
  | None => h
  | Some l => <[l := map_drop (map_deref h m) k]> h
  end.

(** [len(m)] *)
Definition map_len (h : gmap loc (gomap K V)) (m : mapref) : Z :=
  Z.of_nat (map_count (map_deref h m)).

(** [clear(m)] *)
Definition map_clear (m : mapref) (h : gmap loc (gomap K V)) : gmap loc (gomap K V) :=
  match m with
  | None => h
  | Some l => <[l := empty_map]> h
  end.

End GoMap.

(** ** RWMtxMap[K, V] *)

Module RWMtxMap.
Import RWMtx.

Section Methods.
Context {K : Type} `{Countable K} `{!Comparable K} {V : Type} (zeroV : V).

(** The struct embeds [RWMtx[map[K]V]]; its state is the guard and the heap
    the map object lives in. *)
Definition state : Type := RWMtx.t mapref * gmap loc (gomap K V).

Definition NewRWMtxMap (h : gmap loc (gomap K V)) : state :=
  let (m, h') := map_make h in (NewRWMtx m, h').

Definition Store (k : K) (x : V) : M state unit :=
  With (fun '(m, h) => let (r, h') := map_assign m k x h in (r, (m, h'))).

Definition Load (k : K) : M state (V * bool) :=
  named_results (zeroV, false)
    (RWith (fun m '(h, _) => (Ret tt, (h, map_index zeroV h m k)))).

(** The callback reads the entry into the results, then deletes it. *)
Definition LoadAndDelete (k : K) : M state (V * bool) :=
  named_results (zeroV, false)
    (With (fun '(m, (h, _)) =>
             let res := map_index zeroV h m k in
             let h' := map_delete m k h in
             (Ret tt, (m, (h', res))))).

Definition Delete (k : K) : M state unit :=
  With (fun '(m, h) => (Ret tt, (m, map_delete m k h))).

Definition Len : M state Z :=
  named_results 0%Z
    (RWith (fun m '(h, _) => (Ret tt, (h, map_len h m)))).

Definition Clear : M state unit :=
  With (fun '(m, h) => (Ret tt, (m, map_clear m h))).

(** The guarded map object. *)
Definition entries (s : state) : gomap K V := map_deref (snd s) (v (fst s)).

End Methods.
End RWMtxMap.

(** Strings are equal to themselves. *)
#[global] Instance string_comparable : Comparable string := fun _ => true.

(** [float64] keys: the numbers, here the whole ones, and NaN. *)
Inductive float_key : Type := Num (z : Z) | NaN.

#[global] Instance float_key_eq_dec : EqDecision float_key.
Proof. solve_decision. Defined.

#[global] Instance float_key_countable : Countable float_key :=
  inj_countable'
    (fun k => match k with Num z => Some z | NaN => None end)
    (fun o => match o with Some z => Num z | None => NaN end)
    (fun k => match k with Num _ => eq_refl | NaN => eq_refl end).

#[global] Instance float_key_comparable : Comparable float_key :=
  fun k => match k with Num _ => true | NaN => false end.

(** ** Go slices: windows on arrays in a heap *)

(** A slice value is a header: the array it points into ([None] for a nil
    slice), where its window starts, its length and its capacity.  Copying
    the value copies the header, never the array. *)
Record slice : Type := mkSlice {
  base : option loc;
  off : nat;
  len : nat;
  cap : nat
}.

Definition nil_slice : slice := mkSlice None 0 0 0.

Section GoSlice.
Context {T : Type} (zeroT : T).
(** The capacity [append] asks of the allocator when it must grow
    ([runtime.growslice]); whatever it answers, the new array holds at least
    the elements needed. *)
Variable growcap : nat -> nat -> nat.

Definition array_of (h : gmap loc (list T)) (s : slice) : list T :=
  match base s with
  | None => []
  | Some l => default [] (h !! l)
  end.

(** The elements a slice value stands for. *)
Definition elems (h : gmap loc (list T)) (s : slice) : list T :=
  take (len s) (drop (off s) (array_of h s)).

(** Overwrite the array under [s], from position [at_] of its window on. *)
Definition array_write (h : gmap loc (list T)) (s : slice) (at_ : nat)
    (data : list T) : gmap loc (list T) :=
  match base s with
  | None => h
  | Some l =>
      let a := default [] (h !! l) in
      <[l := take (off s + at_) a ++ data ++ drop (off s + at_ + length data) a]> h
  end.

(** [s[i]] *)
Definition slice_index (h : gmap loc (list T)) (s : slice) (i : Z) : outcome T :=
  if decide (0 <= i < Z.of_nat (len s))%Z
  then Ret (default zeroT (elems h s !! Z.to_nat i))
  else Panic (IndexOutOfRange i (len s)).

(** [s[i] = x] *)
Definition slice_assign (s : slice) (i : Z) (x : T) : M (gmap loc (list T)) unit :=
  fun h =>
    if decide (0 <= i < Z.of_nat (len s))%Z
    then (Ret tt, array_write h s (Z.to_nat i) [x])
    else (Panic (IndexOutOfRange i (len s)), h).

(** [s[i:]] *)
Definition slice_from (s : slice) (i : Z) : outcome slice :=
  if decide (0 <= i <= Z.of_nat (len s))%Z
  then Ret (mkSlice (base s) (off s + Z.to_nat i)
                    (len s - Z.to_nat i) (cap s - Z.to_nat i))
  else Panic (SliceBoundsOutOfRange i (len s)).

(** [s[:j]] *)
Definition slice_to (s : slice) (j : Z) : outcome slice :=
  if decide (0 <= j <= Z.of_nat (cap s))%Z
  then Ret (mkSlice (base s) (off s) (Z.to_nat j) (cap s))
  else Panic (SliceBoundsOutOfRange j (cap s)).

(** [copy(dst, src)]: the elements are read before any is written. *)
Definition slice_copy (h : gmap loc (list T)) (dst src : slice)
  : nat * gmap loc (list T) :=
  let n := Nat.min (len dst) (len src) in
  (n, array_write h dst 0 (take n (elems h src))).

(** [make([]T, n)] *)
Definition slice_make (n : nat) (h : gmap loc (list T)) : slice * gmap loc (list T) :=
  let l := fresh (dom h) in
  (mkSlice (Some l) 0 n n, <[l := replicate n zeroT]> h).

(** [[]T{x1, ..., xn}] *)
Definition slice_lit (xs : list T) (h : gmap loc (list T)) : slice * gmap loc (list T) :=
  let l := fresh (dom h) in
  (mkSlice (Some l) 0 (length xs) (length xs), <[l := xs]> h).

(** [append(s, els...)]: in place when the capacity allows, otherwise into
    a new array. *)
Definition slice_append (h : gmap loc (list T)) (s : slice) (els : list T)
  : slice * gmap loc (list T) :=
  let n := len s + length els in
  if decide (n <= cap s)
  then (mkSlice (base s) (off s) n (cap s), array_write h s (len s) els)
  else
    let c := Nat.max n (growcap (cap s) n) in
    let l := fresh (dom h) in
    (mkSlice (Some l) 0 n c, <[l := elems h s ++ els ++ replicate (c - n) zeroT]> h).

(** A header that fits the array it points into. *)
Definition slice_ok (h : gmap loc (list T)) (s : slice) : Prop :=
  match base s with
  | None => off s = 0 /\ len s = 0 /\ cap s = 0
  | Some l => is_Some (h !! l) /\ off s + cap s <= length (array_of h s)
              /\ len s <= cap s
  end.

(** [h'] still holds every array of [h], unchanged except perhaps the one
    at [b]. *)
Definition keeps (h h' : gmap loc (list T)) (b : option loc) : Prop :=
  forall l, is_Some (h !! l) -> b <> Some l -> h' !! l = h !! l.

(** A header that pointed at [b] now points at [b'], which is [b] or an
    array that [h] did not have. *)
Definition moved (h : gmap loc (list T)) (b b' : option loc) : Prop :=
  b' = b \/ exists l, b' = Some l /\ h !! l = None.

End GoSlice.

(** ** RWMtxSlice[T] *)

Module RWMtxSlice.
Import RWMtx.

Section Methods.
Context {T : Type} (zeroT : T).
Variable growcap : nat -> nat -> nat.

Definition state : Type := RWMtx.t slice * gmap loc (list T).

(** [var s RWMtxSlice[T]] *)
Definition zero_value : RWMtx.t slice := RWMtx.mk zeroRWMutex nil_slice.

(** The callback sets the slice to nil, then to [make([]T, 0)]. *)
Definition Clear : M state unit :=
  With (fun '(_, h) =>
          let v1 := nil_slice in
          let (v2, h') := slice_make zeroT 0 h in
          (Ret tt, (v2, h'))).

(** The callback reads element [i] into the result [out], copies the
    elements from [i+1] on over those from [i] on, and keeps the first
    [i + n] elements, [n] being how many [copy] moved. *)
Definition Remove (i : Z) : M state T :=
  named_results zeroT
    (With (
       st <- get ;;
       let '(s, (h, _)) := st in
       x <- eval (slice_index zeroT h s i) ;;
       put (s, (h, x)) ;;;
       dst <- eval (slice_from s i) ;;
       src <- eval (slice_from s (i + 1)) ;;
       let (n, h') := slice_copy h dst src in
       s' <- eval (slice_to s (i + Z.of_nat n)) ;;
       put (s', (h', x)))).

(** [for _, e := range v { clb(e) }]: the header is read once, each element
    when its turn comes. *)
Fixpoint range_loop {L} (clb : T -> M (gmap loc (list T) * L) unit)
    (s : slice) (i n : nat) : M (gmap loc (list T) * L) unit :=
  match n with
  | O => ret tt
  | S n' =>
      st <- get ;;
      clb (default zeroT (array_of (fst st) s !! (off s + i))) ;;;
      range_loop clb s (S i) n'
  end.

Definition Each {L} (clb : T -> M (gmap loc (list T) * L) unit)
  : M (RWMtx.t slice * (gmap loc (list T) * L)) unit :=
  RWith (fun s => range_loop clb s 0 (len s)).

Definition Append (els : list T) : M state unit :=
  With (fun '(s, h) =>
          let (s', h') := slice_append zeroT growcap h s els in
          (Ret tt, (s', h'))).

(** The callback appends the guarded elements to the new slice [[]T{el}]. *)
Definition Unshift (el : T) : M state unit :=
  With (fun '(s, h) =>
          let (lit, h1) := slice_lit [el] h in
          let (s', h2) := slice_append zeroT growcap h1 lit (elems h1 s) in
          (Ret tt, (s', h2))).

(** The callback makes [out] with [make([]T, len(v))] and copies into it. *)
Definition Clone : M state slice :=
  named_results nil_slice
    (RWith (fun s '(h, _) =>
              let (out, h1) := slice_make zeroT (len s) h in
              let (_, h2) := slice_copy h1 out s in
              (Ret tt, (h2, out)))).

Definition Len : M state Z :=
  named_results 0%Z
    (RWith (fun s '(h, _) => (Ret tt, (h, Z.of_nat (len s))))).

(** The guarded sequence. *)
Definition contents (s : state) : list T := elems (snd s) (v (fst s)).

(** A guard nobody holds, over a header that fits its array. *)
Definition guard_ok (s : state) : Prop :=
  unlocked (mu (fst s)) /\ slice_ok (snd s) (v (fst s)).

(** Calls on the slice guard, run one after the other; a call that panics
    is recovered from and the next one runs. *)
Inductive call : Type :=
| CallClear
| CallRemove (i : Z)
| CallAppend (els : list T)
| CallUnshift (el : T)
| CallClone
| CallLen.

Definition run_call (s : state) (c : call) : state :=
  match c with
  | CallClear => snd (Clear s)
  | CallRemove i => snd (Remove i s)
  | CallAppend els => snd (Append els s)
  | CallUnshift el => snd (Unshift el s)
  | CallClone => snd (Clone s)
  | CallLen => snd (Len s)
  end.

(** What the holder of a slice [out] and the users of the guard do, in any
    order: calls on the guard, and assignments [out[j] = x]. *)
Inductive action : Type :=
| OnGuard (c : call)
| OnCopy (j : Z) (x : T).

Definition run_action (out : slice) (s : state) (a : action) : state :=
  match a with
  | OnGuard c => run_call s c
  | OnCopy j x => (fst s, snd (slice_assign out j x (snd s)))
  end.

Definition run_actions (out : slice) (s : state) (acts : list action) : state :=
  foldl (run_action out) s acts.

(** The same calls and assignments on plain sequences, as the specification
    describes them. *)
Definition seq_call (xs : list T) (c : call) : list T :=
  match c with
  | CallClear => []
  | CallRemove i =>
      if decide (0 <= i < Z.of_nat (length xs))%Z
      then take (Z.to_nat i) xs ++ drop (S (Z.to_nat i)) xs
      else xs
  | CallAppend els => xs ++ els
  | CallUnshift el => el :: xs
  | CallClone => xs
  | CallLen => xs
  end.

Definition seq_assign (xs : list T) (j : Z) (x : T) : list T :=
  if decide (0 <= j < Z.of_nat (length xs))%Z
  then <[Z.to_nat j := x]> xs
  else xs.

(** What the guard alone sees of a run, and what the copy alone sees. *)
Definition seq_guard (xs : list T) (acts : list action) : list T :=
  foldl (fun ys a => match a with OnGuard c => seq_call ys c | OnCopy _ _ => ys end)
        xs acts.

Definition seq_copy (xs : list T) (acts : list action) : list T :=
  foldl (fun ys a => match a with OnGuard _ => ys | OnCopy j x => seq_assign ys j x end)
        xs acts.

End Methods.
End RWMtxSlice.

(** ** Values the package's tests start from *)

Module Examples.
Import RWMtx.

(** One allocator policy among those [growcap] stands for. *)
Definition grow_double (old needed : nat) : nat := old + old.

(** [var s RWMtxSlice[int]; s.Append(1, 2, 3)] *)
Definition slice_guard_123 : RWMtxSlice.state (T := Z) :=
  snd (RWMtxSlice.Append 0%Z grow_double [1; 2; 3]%Z
         (RWMtxSlice.zero_value, ∅)).

(** [m := NewRWMtxMap[string, int]()] and [m.Store("b", 2)] *)
Definition map_guard_new : RWMtxMap.state (K := string) (V := Z) :=
  RWMtxMap.NewRWMtxMap ∅.
Definition map_guard_b : RWMtxMap.state (K := string) (V := Z) :=
  snd (RWMtxMap.Store "b" 2%Z map_guard_new).



(** [mtx := NewRWMtx(1)] with nothing else in reach. *)
Definition value_guard_1 : RWMtx.t Z * unit := (NewRWMtx 1%Z, tt).

(** [func(v *int) error { *v = 100; return fmt.Errorf("fail") }] *)
Definition set_then_fail : M (Z * unit) error :=
  fun '(_, w) => (Ret (Some "fail"), (100%Z, w)).

(** [func(v int) error { return fmt.Errorf("fail") }] *)
Definition just_fail : Z -> M unit error :=
  fun _ w => (Ret (Some "fail"), w).

(** Other goroutines that, each time they get the mutex first, store under
    ["b"] one more than what is there. *)
Definition others_bump_b
  : mapref * gmap loc (gomap string Z) -> mapref * gmap loc (gomap string Z) :=
  fun '(m, h) =>
    (m, snd (map_assign m "b" (fst (map_index 0%Z h m "b") + 1)%Z h)).

End Examples.

(** ** The claims as they are worded *)

(** "Get returns a copy", of a map guard: a store made through the value
    [Get] returned, outside any method of the guard, does not change the
    map the guard holds. *)
Definition Get_returns_copy {K : Type} `{Countable K} `{!Comparable K}
    {V : Type} (s : RWMtxMap.state (K := K) (V := V)) : Prop :=
  forall r s1, RWMtx.Get s = (Ret r, s1) ->
  forall k x h', map_assign r k x (snd s1) = (Ret tt, h') ->
  RWMtxMap.entries (fst s1, h') = RWMtxMap.entries s1.


(** ** A guard shared with other goroutines *)

(** The other goroutines go through the guard's methods too, so they change
    the guarded value and the rest of the program only while this goroutine
    does not hold the mutex: before it obtains it and after it releases it.
    [others] is what they do at each such moment.  The methods below are
    those of [RWMtx] and [RWMtxMap] word for word, except that a lock or
    unlock call that succeeds lets [others] act. *)
Module Shared.
Import RWMtx.

Section Methods.
Context {T W : Type}.
Variable others : T * W -> T * W.

Definition on_mu (f : RWMutex -> outcome unit * RWMutex)
  : M (RWMtx.t T * W) unit :=
  fun '(m, w) =>
    match f (mu m) with
    | (Ret _, l) => let (x, w') := others (v m, w) in (Ret tt, (mk l x, w'))
    | (Panic p, l) => (Panic p, (mk l (v m), w))
    | (Blocked, l) => (Blocked, (mk l (v m), w))
    | (Fatal msg, l) => (Fatal msg, (mk l (v m), w))
    end.

Definition RWithE (clb : T -> M W error) : M (RWMtx.t T * W) error :=
  on_mu RLock ;;;
  defer (on_mu RUnlock) (call_value clb).

Definition RWith (clb : T -> M W unit) : M (RWMtx.t T * W) unit :=
  RWithE (fun tx => clb tx ;;; ret nil_error) ;;; ret tt.

Definition WithE (clb : M (T * W) error) : M (RWMtx.t T * W) error :=
  on_mu Lock ;;;
  defer (on_mu Unlock) (call_pointer clb).

Definition With (clb : M (T * W) unit) : M (RWMtx.t T * W) unit :=
  WithE (clb ;;; ret nil_error) ;;; ret tt.

End Methods.

Section MapMethods.
Context {K : Type} `{Countable K} `{!Comparable K} {V : Type} (zeroV : V).
Variable others
  : mapref * gmap loc (gomap K V) -> mapref * gmap loc (gomap K V).

(** The callbacks see [others] through the heap only: lift it over the
    named results of the method. *)
Definition beside {L : Type}
  : mapref * (gmap loc (gomap K V) * L) -> mapref * (gmap loc (gomap K V) * L) :=
  fun '(m, (h, l)) => let (m', h') := others (m, h) in (m', (h', l)).

Definition Load (k : K) : M RWMtxMap.state (V * bool) :=
  named_results (zeroV, false)
    (RWith beside (fun m '(h, _) => (Ret tt, (h, map_index zeroV h m k)))).

Definition LoadAndDelete (k : K) : M RWMtxMap.state (V * bool) :=
  named_results (zeroV, false)
    (With beside (fun '(m, (h, _)) =>
             let res := map_index zeroV h m k in
             let h' := map_delete m k h in
             (Ret tt, (m, (h', res))))).

Definition Delete (k : K) : M RWMtxMap.state unit :=
  With others (fun '(m, h) => (Ret tt, (m, map_delete m k h))).

End MapMethods.
End Shared.

(** ** Runs of calls, and traversals *)

(** Calls on the slice guard, one after the other. *)
Definition run_calls {T : Type} (zeroT : T) (growcap : nat -> nat -> nat)
    (s : RWMtxSlice.state (T := T)) (cs : list RWMtxSlice.call)
  : RWMtxSlice.state (T := T) :=
  foldl (RWMtxSlice.run_call zeroT growcap) s cs.

(** A callback for [Each] that works on a state [L] of its own and leaves
    the heap alone. *)
Definition visitor {T L : Type} (f : T -> L -> outcome unit * L)
  : T -> M (gmap loc (list T) * L) unit :=
  fun e '(h, l) => let (r, l') := f e l in (r, (h, l')).

(** Calling [f] on the elements of a sequence in order, up to the first call
    that does not return. *)
Fixpoint visit_all {T L : Type} (f : T -> L -> outcome unit * L)
    (xs : list T) (l : L) : outcome unit * L :=
  match xs with
  | [] => (Ret tt, l)
  | x :: xs' =>
      match f x l with
      | (Ret _, l') => visit_all f xs' l'
      | (Panic p, l') => (Panic p, l')
      | (Blocked, l') => (Blocked, l')
      | (Fatal msg, l') => (Fatal msg, l')
      end
  end.

(** * Properties *)

(** ** The single-value guard *)

Section RWMtxFacts.
Import RWMtx.
Context {T W : Type}.
Implicit Types (m : RWMtx.t T) (w : W).

Lemma unlocked_released l evs : unlocked (released l evs).
Proof. by split. Qed.

Lemma Get_eq m w :
  unlocked (mu m) ->
  Get (m, w) = (Ret (v m), (mk (released (mu m) [EvRLock; EvRUnlock]) (v m), w)).
Proof.
  destruct m as [[wr rd hs] x]; intros [Hw Hr]; simpl in *; subst.
  unfold Get, bind, defer, on_mu, RLock, RUnlock, released; simpl.
  by rewrite <- app_assoc.
Qed.

Lemma Set_eq x m w :
  unlocked (mu m) ->
  Set_ x (m, w) = (Ret tt, (mk (released (mu m) [EvLock; EvUnlock]) x, w)).
Proof.
  destruct m as [[wr rd hs] y]; intros [Hw Hr]; simpl in *; subst.
  unfold Set_, bind, defer, on_mu, Lock, Unlock, released; simpl.
  by rewrite <- app_assoc.
Qed.

(** What [RWithE] does with each way its callback can end. *)
Lemma RWithE_eq (clb : T -> M W error) m w :
  unlocked (mu m) ->
  RWithE clb (m, w) =
    match clb (v m) w with
    | (Ret e, w') => (Ret e, (mk (released (mu m) [EvRLock; EvRUnlock]) (v m), w'))
    | (Panic p, w') => (Panic p, (mk (released (mu m) [EvRLock; EvRUnlock]) (v m), w'))
    | (Blocked, w') => (Blocked, (mk (read_held (mu m)) (v m), w'))
    | (Fatal msg, w') => (Fatal msg, (mk (read_held (mu m)) (v m), w'))
    end.
Proof.
  destruct m as [[wr rd hs] x]; intros [Hw Hr]; simpl in *; subst.
  unfold RWithE, bind, defer, on_mu, call_value, RLock, RUnlock, released, read_held;
    simpl.
  destruct (clb x w) as [[e|p| |msg] w']; simpl; try done;
    by rewrite <- app_assoc.
Qed.

(** What [WithE] does with each way its callback can end. *)
Lemma WithE_eq (clb : M (T * W) error) m w :
  unlocked (mu m) ->
  WithE clb (m, w) =
    match clb (v m, w) with
    | (Ret e, (x, w')) => (Ret e, (mk (released (mu m) [EvLock; EvUnlock]) x, w'))
    | (Panic p, (x, w')) => (Panic p, (mk (released (mu m) [EvLock; EvUnlock]) x, w'))
    | (Blocked, (x, w')) => (Blocked, (mk (write_held (mu m)) x, w'))
    | (Fatal msg, (x, w')) => (Fatal msg, (mk (write_held (mu m)) x, w'))
    end.
Proof.
  destruct m as [[wr rd hs] y]; intros [Hw Hr]; simpl in *; subst.
  unfold WithE, bind, defer, on_mu, call_pointer, Lock, Unlock, released, write_held;
    simpl.
  destruct (clb (y, w)) as [[e|p| |msg] [x w']]; simpl; try done;
    by rewrite <- app_assoc.
Qed.

Lemma RWith_eq (clb : T -> M W unit) m w :
  unlocked (mu m) ->
  RWith clb (m, w) =
    match clb (v m) w with
    | (Ret _, w') => (Ret tt, (mk (released (mu m) [EvRLock; EvRUnlock]) (v m), w'))
    | (Panic p, w') => (Panic p, (mk (released (mu m) [EvRLock; EvRUnlock]) (v m), w'))
    | (Blocked, w') => (Blocked, (mk (read_held (mu m)) (v m), w'))
    | (Fatal msg, w') => (Fatal msg, (mk (read_held (mu m)) (v m), w'))
    end.
Proof.
  intros Hu. unfold RWith, bind at 1. rewrite RWithE_eq by done.
  unfold bind, ret. by destruct (clb (v m) w) as [[[]|p| |msg] w'].
Qed.

Lemma With_eq (clb : M (T * W) unit) m w :
  unlocked (mu m) ->
  With clb (m, w) =
    match clb (v m, w) with
    | (Ret _, (x, w')) => (Ret tt, (mk (released (mu m) [EvLock; EvUnlock]) x, w'))
    | (Panic p, (x, w')) => (Panic p, (mk (released (mu m) [EvLock; EvUnlock]) x, w'))
    | (Blocked, (x, w')) => (Blocked, (mk (write_held (mu m)) x, w'))
    | (Fatal msg, (x, w')) => (Fatal msg, (mk (write_held (mu m)) x, w'))
    end.
Proof.
  intros Hu. unfold With, bind at 1. rewrite WithE_eq by done.
  unfold bind, ret. by destruct (clb (v m, w)) as [[[]|p| |msg] [x w']].
Qed.

End RWMtxFacts.

Section ScopedFacts.
Import RWMtx.
Context {T W : Type}.
Implicit Types (m : RWMtx.t T) (w : W).

Lemma RWith_discards (clb : T -> M W unit) (s : RWMtx.t T * W) :
  RWith clb s =
    (discard (fst (RWithE (fun tx => clb tx ;;; ret nil_error) s)),
     snd (RWithE (fun tx => clb tx ;;; ret nil_error) s)).
Proof.
  unfold RWith, bind at 1.
  by destruct (RWithE _ s) as [[e|p| |msg] s'].
Qed.

Lemma With_discards (clb : M (T * W) unit) (s : RWMtx.t T * W) :
  With clb s =
    (discard (fst (WithE (clb ;;; ret nil_error) s)),
     snd (WithE (clb ;;; ret nil_error) s)).
Proof.
  unfold With, bind at 1.
  by destruct (WithE _ s) as [[e|p| |msg] s'].
Qed.

Lemma RWithE_wrapper_nil (clb : T -> M W unit) (s : RWMtx.t T * W) e :
  fst (RWithE (fun tx => clb tx ;;; ret nil_error) s) = Ret e -> e = nil_error.
Proof.
  destruct s as [[[wr rd hs] x] w].
  unfold RWithE, bind, defer, on_mu, call_value, ret, RLock, RUnlock; simpl.
  destruct wr; simpl; [done|].
  destruct (clb x w) as [[[]|p| |msg] w']; simpl; congruence.
Qed.

Lemma WithE_wrapper_nil (clb : M (T * W) unit) (s : RWMtx.t T * W) e :
  fst (WithE (clb ;;; ret nil_error) s) = Ret e -> e = nil_error.
Proof.
  destruct s as [[[wr rd hs] x] w].
  unfold WithE, bind, defer, on_mu, call_pointer, ret, Lock, Unlock; simpl.
  destruct wr; simpl; [done|]. destruct rd; simpl; [|done].
  destruct (clb (x, w)) as [[[]|p| |msg] [y w']]; simpl; congruence.
Qed.

Lemma RWith_ReadScoped (clb : T -> M W unit) (s : RWMtx.t T * W) :
  RWith clb s = ReadScoped clb s.
Proof.
  destruct s as [[[wr rd hs] x] w].
  unfold RWith, ReadScoped, RWithE, bind, defer, on_mu, call_value, ret,
    RLock, RUnlock; simpl.
  destruct wr; simpl; [done|].
  by destruct (clb x w) as [[[]|p| |msg] w'].
Qed.

Lemma With_WriteScoped (clb : M (T * W) unit) (s : RWMtx.t T * W) :
  With clb s = WriteScoped clb s.
Proof.
  destruct s as [[[wr rd hs] x] w].
  unfold With, WriteScoped, WithE, bind, defer, on_mu, call_pointer, ret,
    Lock, Unlock; simpl.
  destruct wr; simpl; [done|]. destruct rd; simpl; [|done].
  by destruct (clb (x, w)) as [[[]|p| |msg] [y w']].
Qed.

End ScopedFacts.

(** ** The map guard *)

Section GoMapFacts.
Context {K : Type} `{Countable K} `{!Comparable K} {V : Type}.
Implicit Types (o : gomap K V) (k : K) (x : V).

Lemma gomap_eta o : mkMap (keyed o) (loose o) = o.
Proof. by destruct o. Qed.

Lemma map_find_empty k : map_find (empty_map (V := V)) k = None.
Proof. unfold map_find. by destruct (self_equal k). Qed.

Lemma map_find_put_eq o k x :
  self_equal k = true -> map_find (map_put o k x) k = Some x.
Proof.
  intros Hk. unfold map_find, map_put. rewrite Hk. cbn [keyed].
  apply lookup_insert_eq.
Qed.

(** An entry stored under a key that is not equal to itself is found under
    no key, that key included. *)
Lemma map_find_put_irreflexive o k x k' :
  self_equal k = false -> map_find (map_put o k x) k' = map_find o k'.
Proof. intros Hk. unfold map_find, map_put. by rewrite Hk. Qed.

Lemma map_find_put_ne o k x k' :
  k' <> k -> map_find (map_put o k x) k' = map_find o k'.
Proof.
  intros Hne. unfold map_find, map_put.
  destruct (self_equal k), (self_equal k'); cbn [keyed]; try done.
  by rewrite lookup_insert_ne.
Qed.


Lemma map_find_drop_ne o k k' :
  k' <> k -> map_find (map_drop o k) k' = map_find o k'.
Proof.
  intros Hne. unfold map_find, map_drop.
  destruct (self_equal k), (self_equal k'); cbn [keyed]; try done.
  by rewrite lookup_delete_ne.
Qed.

Lemma map_drop_absent o k : map_find o k = None -> map_drop o k = o.
Proof.
  unfold map_find, map_drop. destruct (self_equal k); [|done].
  intros Hk. rewrite delete_id by done. apply gomap_eta.
Qed.

Lemma map_drop_empty k : map_drop (empty_map (V := V)) k = empty_map.
Proof. apply map_drop_absent, map_find_empty. Qed.


Lemma map_count_put o k x :
  map_count (map_put o k x)
  = match map_find o k with Some _ => map_count o | None => S (map_count o) end.
Proof.
  unfold map_count, map_find, map_put. destruct (self_equal k); cbn [keyed loose].
  - rewrite map_size_insert. by destruct (keyed o !! k).
  - rewrite length_app. simpl. lia.
Qed.

Lemma map_count_drop o k :
  map_count (map_drop o k)
  = match map_find o k with Some _ => pred (map_count o) | None => map_count o end.
Proof.
  unfold map_count, map_find, map_drop. destruct (self_equal k); [|done].
  cbn [keyed loose]. rewrite map_size_delete.
  destruct (keyed o !! k) eqn:Hk; [|done].
  assert (size (keyed o) <> 0)
    by (apply (map_size_ne_0_lookup_2 _ k); by eexists).
  simpl. lia.
Qed.

Lemma map_count_found o k x : map_find o k = Some x -> 0 < map_count o.
Proof.
  unfold map_count, map_find. destruct (self_equal k); [|done]. intros Hk.
  assert (size (keyed o) <> 0)
    by (apply (map_size_ne_0_lookup_2 _ k); by eexists).
  lia.
Qed.

End GoMapFacts.

Section RWMtxMapFacts.
Import RWMtx RWMtxMap.
Context {K : Type} `{Countable K} `{!Comparable K} {V : Type} (zeroV : V).
Implicit Types (s : RWMtx.t mapref * gmap loc (gomap K V)) (k : K) (x : V).

Lemma Load_eq k s :
  unlocked (mu (fst s)) ->
  Load zeroV k s =
    (Ret (map_index zeroV (snd s) (v (fst s)) k),
     (mk (released (mu (fst s)) [EvRLock; EvRUnlock]) (v (fst s)), snd s)).
Proof.
  destruct s as [m h]; intros Hu. unfold Load, named_results.
  by rewrite RWith_eq.
Qed.

Lemma Len_eq s :
  unlocked (mu (fst s)) ->
  Len s =
    (Ret (map_len (snd s) (v (fst s))),
     (mk (released (mu (fst s)) [EvRLock; EvRUnlock]) (v (fst s)), snd s)).
Proof.
  destruct s as [m h]; intros Hu. unfold Len, named_results.
  by rewrite RWith_eq.
Qed.

Lemma Store_eq k x s :
  unlocked (mu (fst s)) ->
  Store k x s =
    match v (fst s) with
    | Some l =>
        (Ret tt, (mk (released (mu (fst s)) [EvLock; EvUnlock]) (Some l),
                  <[l := map_put (map_deref (snd s) (Some l)) k x]> (snd s)))
    | None =>
        (Panic NilMapAssign,
         (mk (released (mu (fst s)) [EvLock; EvUnlock]) None, snd s))
    end.
Proof.
  destruct s as [m h]; intros Hu. unfold Store.
  rewrite With_eq by done. simpl. by destruct (v m).
Qed.

Lemma LoadAndDelete_eq k s :
  unlocked (mu (fst s)) ->
  LoadAndDelete zeroV k s =
    (Ret (map_index zeroV (snd s) (v (fst s)) k),
     (mk (released (mu (fst s)) [EvLock; EvUnlock]) (v (fst s)),
      map_delete (v (fst s)) k (snd s))).
Proof.
  destruct s as [m h]; intros Hu. unfold LoadAndDelete, named_results.
  by rewrite With_eq.
Qed.

Lemma Delete_eq k s :
  unlocked (mu (fst s)) ->
  Delete k s =
    (Ret tt, (mk (released (mu (fst s)) [EvLock; EvUnlock]) (v (fst s)),
              map_delete (v (fst s)) k (snd s))).
Proof.
  destruct s as [m h]; intros Hu. unfold Delete. by rewrite With_eq.
Qed.

Lemma Clear_eq s :
  unlocked (mu (fst s)) ->
  Clear s =
    (Ret tt, (mk (released (mu (fst s)) [EvLock; EvUnlock]) (v (fst s)),
              map_clear (v (fst s)) (snd s))).
Proof.
  destruct s as [m h]; intros Hu. unfold Clear. by rewrite With_eq.
Qed.

(** Reading a map object back after the built-in operations. *)
Lemma map_deref_delete (h : gmap loc (gomap K V)) (r : mapref) k :
  map_deref (map_delete r k h) r = map_drop (map_deref h r) k.
Proof.
  destruct r as [l|]; simpl.
  - by rewrite lookup_insert_eq.
  - by rewrite map_drop_empty.
Qed.

Lemma map_deref_assign (h : gmap loc (gomap K V)) (l : loc) k x :
  map_deref (<[l := map_put (map_deref h (Some l)) k x]> h) (Some l)
  = map_put (map_deref h (Some l)) k x.
Proof. simpl. by rewrite lookup_insert_eq. Qed.





End RWMtxMapFacts.

Section RWMtxMapClaims.
Import RWMtx RWMtxMap.
Context {K : Type} `{Countable K} `{!Comparable K} {V : Type} (zeroV : V).
Implicit Types (s : RWMtx.t mapref * gmap loc (gomap K V)) (k : K) (x : V).

Lemma map_index_entries s k :
  map_index zeroV (snd s) (v (fst s)) k =
    match map_find (entries s) k with
    | Some x => (x, true)
    | None => (zeroV, false)
    end.
Proof. done. Qed.



(** [Store] on the zero value of the struct, whose map is nil, panics. *)
Lemma Store_nil_map_panics k x s :
  unlocked (mu (fst s)) -> v (fst s) = None ->
  fst (Store k x s) = Panic NilMapAssign.
Proof. intros Hu Hn. by rewrite Store_eq, Hn. Qed.

(** The methods of the map guard keep a guard as the constructor made it:
    unlocked, over a map that is not nil. *)
Lemma map_methods_keep_guard k x s :
  unlocked (mu (fst s)) -> is_Some (v (fst s)) ->
  Forall (fun s' => unlocked (mu (fst s')) /\ v (fst s') = v (fst s))
    [snd (Store k x s); snd (Load zeroV k s); snd (LoadAndDelete zeroV k s);
     snd (Delete k s); snd (Len s); snd (Clear s)].
Proof.
  intros Hu [l Hl].
  rewrite Store_eq, Load_eq, LoadAndDelete_eq, Delete_eq, Len_eq, Clear_eq by done.
  rewrite Hl. repeat constructor.
Qed.

End RWMtxMapClaims.


(** Two calls are not one.  Among goroutines that add one to the entry under
    ["b"] whenever the mutex is free, [Load] then [Delete] on a map holding 2
    returns 3 and removes the entry 5, while [LoadAndDelete] returns 3, the
    entry it removes. *)
Lemma Load_then_Delete_can_be_split :
  let s1 := snd (Shared.Load 0%Z Examples.others_bump_b "b" Examples.map_guard_b) in
  let a1 := Examples.others_bump_b (RWMtx.v (fst s1), snd s1) in
  let a := Examples.others_bump_b
             (RWMtx.v (fst Examples.map_guard_b), snd Examples.map_guard_b) in
  fst (Shared.Load 0%Z Examples.others_bump_b "b" Examples.map_guard_b)
  = Ret (3%Z, true)
  /\ fst (Shared.Delete Examples.others_bump_b "b" s1) = Ret tt
  /\ map_index 0%Z (snd a1) (fst a1) "b" = (5%Z, true)
  /\ fst (Shared.LoadAndDelete 0%Z Examples.others_bump_b "b"
            Examples.map_guard_b) = Ret (3%Z, true)
  /\ map_index 0%Z (snd a) (fst a) "b" = (3%Z, true).
Proof. vm_compute. by repeat split. Qed.


(** ** Slices and the arrays under them *)

Section GoSliceFacts.
Context {T : Type} (zeroT : T).
Variable growcap : nat -> nat -> nat.
Implicit Types (h : gmap loc (list T)) (s c : slice) (a data : list T).

(** Overwriting part of an array, seen through a window that starts at [o]. *)
Lemma window_write a data o p :
  o + p + length data <= length a ->
  drop o (take (o + p) a ++ data ++ drop (o + p + length data) a)
  = take p (drop o a) ++ data ++ drop (p + length data) (drop o a).
Proof.
  intros Hlen.
  rewrite drop_app_le by (rewrite length_take; lia).
  rewrite take_drop_commute, drop_drop.
  by rewrite (Nat.add_assoc o p).
Qed.

Lemma window_write_length a data o :
  o + length data <= length a ->
  length (take o a ++ data ++ drop (o + length data) a) = length a.
Proof.
  intros Hlen. rewrite !length_app, length_take, length_drop. lia.
Qed.

Lemma elems_length h s : slice_ok h s -> length (elems h s) = len s.
Proof.
  unfold slice_ok, elems, array_of. destruct (base s) as [l|].
  - intros (_ & Hcap & Hlen). rewrite length_take, length_drop. lia.
  - intros (_ & -> & _). done.
Qed.

Lemma array_of_insert_ne h l a c :
  base c <> Some l -> array_of (<[l := a]> h) c = array_of h c.
Proof.
  unfold array_of. destruct (base c) as [l'|]; [|done].
  intros Hne. rewrite lookup_insert_ne; [done|congruence].
Qed.

Lemma array_of_insert_eq h l a c :
  base c = Some l -> array_of (<[l := a]> h) c = a.
Proof. unfold array_of. intros ->. by rewrite lookup_insert_eq. Qed.

(** A write under [s] is not seen through a slice on another array. *)
Lemma array_write_other h s p data c :
  base c <> base s -> array_of (array_write h s p data) c = array_of h c.
Proof.
  unfold array_write. destruct (base s) as [l|]; [|done].
  intros Hne. by apply array_of_insert_ne.
Qed.

(** A write under [s], seen through a slice with the same start. *)
Lemma array_write_same h s p data c :
  slice_ok h s -> base c = base s ->
  p + length data <= cap s ->
  data <> [] \/ is_Some (base s) ->
  drop (off s) (array_of (array_write h s p data) c)
  = take p (drop (off s) (array_of h s)) ++ data
    ++ drop (p + length data) (drop (off s) (array_of h s)).
Proof.
  unfold slice_ok, array_write, array_of.
  intros Hok Hb Hfit Hne. rewrite Hb.
  destruct (base s) as [l|].
  - destruct Hok as ([a Ha] & Hcap & Hlen). rewrite Ha in *. simpl in *.
    rewrite lookup_insert_eq. simpl. apply window_write. lia.
  - destruct Hok as (_ & _ & Hc). destruct Hne as [Hne|[? [=]]].
    destruct data; [done|]. simpl in Hfit. lia.
Qed.

Lemma array_write_ok h s p data c :
  slice_ok h s -> p + length data <= cap s ->
  slice_ok h c -> slice_ok (array_write h s p data) c.
Proof.
  unfold array_write. destruct (base s) as [l|] eqn:Hb; [|done].
  intros Hs Hfit Hc. unfold slice_ok in *. rewrite Hb in Hs.
  destruct Hs as ([a Ha] & Hcap & Hlen).
  unfold array_of in Hcap. rewrite Hb, Ha in Hcap. simpl in Hcap.
  destruct (base c) as [l'|] eqn:Hbc; [|done].
  destruct Hc as (Hal & Hcc & Hlc).
  destruct (decide (l' = l)) as [->|Hne].
  - split; [by rewrite lookup_insert_eq|]. split; [|done].
    rewrite array_of_insert_eq by done. rewrite Ha. simpl.
    unfold array_of in Hcc. rewrite Hbc, Ha in Hcc. simpl in Hcc.
    rewrite window_write_length; lia.
  - split; [by rewrite lookup_insert_ne|]. split; [|done].
    rewrite array_of_insert_ne; [done|congruence].
Qed.

(** Allocation leaves the slices that were there alone. *)
Lemma alloc_ok h a c :
  slice_ok h c -> slice_ok (<[fresh (dom h) := a]> h) c.
Proof.
  unfold slice_ok. destruct (base c) as [l|] eqn:Hb; [|done].
  intros (Hal & Hcap & Hlen).
  assert (l <> fresh (dom h)).
  { intros ->. apply (is_fresh (dom h)). by apply elem_of_dom. }
  split; [by rewrite lookup_insert_ne|]. split; [|done].
  rewrite array_of_insert_ne; [done|]. rewrite Hb. congruence.
Qed.

Lemma alloc_elems h a c :
  slice_ok h c -> elems (<[fresh (dom h) := a]> h) c = elems h c.
Proof.
  unfold slice_ok, elems. destruct (base c) as [l|] eqn:Hb.
  - intros (Hal & _). rewrite array_of_insert_ne; [done|].
    rewrite Hb. intros [= ->]. apply (is_fresh (dom h)). by apply elem_of_dom.
  - intros _. unfold array_of. by rewrite Hb.
Qed.

Lemma keeps_refl h b : keeps h h b.
Proof. by intros l _ _. Qed.

Lemma keeps_alloc h a b : keeps h (<[fresh (dom h) := a]> h) b.
Proof.
  intros l Hl _. rewrite lookup_insert_ne; [done|].
  intros <-. apply (is_fresh (dom h)). by apply elem_of_dom.
Qed.

Lemma keeps_write h s p data : keeps h (array_write h s p data) (base s).
Proof.
  unfold array_write. destruct (base s) as [l|]; [|apply keeps_refl].
  intros l' _ Hne. rewrite lookup_insert_ne; [done|congruence].
Qed.

Lemma keeps_trans h1 h2 h3 b :
  keeps h1 h2 b -> keeps h2 h3 b -> keeps h1 h3 b.
Proof.
  intros H12 H23 l Hl Hb. rewrite H23, H12; try done. by rewrite H12.
Qed.

Lemma fresh_unallocated h : h !! fresh (dom h) = None.
Proof. apply not_elem_of_dom, is_fresh. Qed.

(** [append]: the elements, then the new ones; other arrays are left alone. *)
Lemma slice_append_spec h s els :
  slice_ok h s ->
  let r := slice_append zeroT growcap h s els in
  elems (snd r) (fst r) = elems h s ++ els
  /\ slice_ok (snd r) (fst r)
  /\ keeps h (snd r) (base s)
  /\ moved h (base s) (base (fst r))
  /\ (forall c, slice_ok h c -> slice_ok (snd r) c).
Proof.
  intros Hok. unfold slice_append. case_decide as Hfit; cbn [fst snd].
  - assert (Hok' : slice_ok h
               (mkSlice (base s) (off s) (len s + length els) (cap s))).
    { revert Hok. unfold slice_ok, array_of. cbn [base off len cap].
      destruct (base s); [|lia].
      intros (Hal & Hcap & Hlen). split; [done|]. split; [done|lia]. }
    split; [|split; [|split; [|split]]].
    + destruct (base s) as [l|] eqn:Hb.
      * unfold elems at 1. cbn [off len].
        rewrite (array_write_same h s) by (rewrite ?Hb; eauto with lia).
        rewrite app_assoc. fold (elems h s).
        apply take_app_length'. rewrite length_app, elems_length by done. lia.
      * unfold slice_ok in Hok. rewrite Hb in Hok.
        destruct Hok as (_ & Hl & Hc). rewrite Hl, Hc in Hfit.
        destruct els; [|simpl in Hfit; lia].
        unfold elems, array_of, array_write. cbn [base]. rewrite Hb.
        by rewrite !drop_nil, !take_nil.
    + by apply array_write_ok.
    + apply keeps_write.
    + by left.
    + intros c Hc. by apply array_write_ok.
  - split; [|split; [|split; [|split]]].
    + unfold elems at 1. cbn [off len]. rewrite array_of_insert_eq by done.
      rewrite drop_0, app_assoc.
      apply take_app_length'. rewrite length_app, elems_length by done. lia.
    + unfold slice_ok. cbn [base off len cap].
      rewrite array_of_insert_eq by done.
      split; [by rewrite lookup_insert_eq|].
      rewrite !length_app, length_replicate, elems_length by done. lia.
    + apply keeps_alloc.
    + right. eexists. split; [done|]. apply fresh_unallocated.
    + intros c Hc. by apply alloc_ok.
Qed.

Lemma slice_make_spec h n :
  let r := slice_make zeroT n h in
  elems (snd r) (fst r) = replicate n zeroT
  /\ slice_ok (snd r) (fst r)
  /\ base (fst r) = Some (fresh (dom h))
  /\ len (fst r) = n /\ cap (fst r) = n /\ off (fst r) = 0.
Proof.
  unfold slice_make; cbn [fst snd]. split; [|split].
  - unfold elems. cbn [off len]. rewrite array_of_insert_eq by done.
    rewrite drop_0. apply take_ge. by rewrite length_replicate.
  - unfold slice_ok. cbn [base off len cap].
    rewrite array_of_insert_eq by done.
    split; [by rewrite lookup_insert_eq|]. rewrite length_replicate. lia.
  - done.
Qed.

Lemma slice_lit_spec h xs :
  let r := slice_lit xs h in
  elems (snd r) (fst r) = xs
  /\ slice_ok (snd r) (fst r)
  /\ base (fst r) = Some (fresh (dom h)).
Proof.
  unfold slice_lit; cbn [fst snd]. split; [|split].
  - unfold elems. cbn [off len]. rewrite array_of_insert_eq by done.
    rewrite drop_0. by apply take_ge.
  - unfold slice_ok. cbn [base off len cap].
    rewrite array_of_insert_eq by done.
    split; [by rewrite lookup_insert_eq|]. lia.
  - done.
Qed.

End GoSliceFacts.

(** ** The slice guard *)

Section RWMtxSliceFacts.
Import RWMtx RWMtxSlice.
Context {T : Type} (zeroT : T).
Variable growcap : nat -> nat -> nat.
Implicit Types (s : RWMtx.t slice * gmap loc (list T)) (c : slice).

Lemma slice_Append_eq els s :
  unlocked (mu (fst s)) ->
  Append zeroT growcap els s =
    (Ret tt,
     (mk (released (mu (fst s)) [EvLock; EvUnlock])
         (fst (slice_append zeroT growcap (snd s) (v (fst s)) els)),
      snd (slice_append zeroT growcap (snd s) (v (fst s)) els))).
Proof.
  destruct s as [m h]; intros Hu. unfold Append. rewrite With_eq by done.
  cbn [fst snd]. by destruct (slice_append _ _ _ _ _).
Qed.

Lemma slice_Unshift_eq el s :
  unlocked (mu (fst s)) ->
  Unshift zeroT growcap el s =
    let lit := slice_lit [el] (snd s) in
    let r := slice_append zeroT growcap (snd lit) (fst lit)
               (elems (snd lit) (v (fst s))) in
    (Ret tt, (mk (released (mu (fst s)) [EvLock; EvUnlock]) (fst r), snd r)).
Proof.
  destruct s as [m h]; intros Hu. unfold Unshift. rewrite With_eq by done.
  cbn [fst snd]. destruct (slice_lit _ _) as [lit h1]. cbn [fst snd].
  by destruct (slice_append _ _ _ _ _).
Qed.

Lemma slice_Clear_eq s :
  unlocked (mu (fst s)) ->
  Clear zeroT s =
    (Ret tt,
     (mk (released (mu (fst s)) [EvLock; EvUnlock])
         (fst (slice_make zeroT 0 (snd s))),
      snd (slice_make zeroT 0 (snd s)))).
Proof.
  destruct s as [m h]; intros Hu. unfold Clear. by rewrite With_eq.
Qed.

Lemma slice_Len_eq s :
  unlocked (mu (fst s)) ->
  Len s =
    (Ret (Z.of_nat (len (v (fst s)))),
     (mk (released (mu (fst s)) [EvRLock; EvRUnlock]) (v (fst s)), snd s)).
Proof.
  destruct s as [m h]; intros Hu. unfold Len, named_results.
  by rewrite RWith_eq.
Qed.

Lemma slice_Clone_eq s :
  unlocked (mu (fst s)) ->
  Clone zeroT s =
    let out := slice_make zeroT (len (v (fst s))) (snd s) in
    (Ret (fst out),
     (mk (released (mu (fst s)) [EvRLock; EvRUnlock]) (v (fst s)),
      snd (slice_copy (snd out) (fst out) (v (fst s))))).
Proof.
  destruct s as [m h]; intros Hu. unfold Clone, named_results.
  by rewrite RWith_eq.
Qed.

(** An index outside the slice: the read of element [i] panics, the deferred
    [Unlock] runs, and nothing else has happened. *)
Lemma slice_Remove_out_of_range i s :
  unlocked (mu (fst s)) ->
  ~ (0 <= i < Z.of_nat (len (v (fst s))))%Z ->
  Remove zeroT i s =
    (Panic (IndexOutOfRange i (len (v (fst s)))),
     (mk (released (mu (fst s)) [EvLock; EvUnlock]) (v (fst s)), snd s)).
Proof.
  destruct s as [m h]; intros Hu Hi. unfold Remove, named_results.
  rewrite With_eq by done. cbn [fst snd] in *.
  unfold bind, get, eval, slice_index. by rewrite decide_False.
Qed.

(** An index inside the slice. *)
Lemma slice_Remove_in_range (i : nat) s :
  unlocked (mu (fst s)) ->
  i < len (v (fst s)) -> len (v (fst s)) <= cap (v (fst s)) ->
  Remove zeroT (Z.of_nat i) s =
    let g := v (fst s) in
    (Ret (default zeroT (elems (snd s) g !! i)),
     (mk (released (mu (fst s)) [EvLock; EvUnlock])
         (mkSlice (base g) (off g) (len g - 1) (cap g)),
      array_write (snd s)
        (mkSlice (base g) (off g + i) (len g - i) (cap g - i)) 0
        (take (len g - S i)
           (elems (snd s)
              (mkSlice (base g) (off g + S i) (len g - S i) (cap g - S i)))))).
Proof.
  destruct s as [m h]; intros Hu Hi Hc. unfold Remove, named_results.
  rewrite With_eq by done. cbn [fst snd] in *.
  unfold bind, get, eval, put, slice_index, slice_from, slice_to, slice_copy.
  rewrite decide_True by lia. rewrite decide_True by lia.
  rewrite decide_True by lia. cbn [len].
  replace (Z.to_nat (Z.of_nat i + 1)) with (S i) by lia.
  rewrite Nat2Z.id.
  replace (Nat.min (len (v m) - i) (len (v m) - S i)) with (len (v m) - S i)
    by lia.
  rewrite decide_True by lia. cbv zeta.
  replace (Z.to_nat (Z.of_nat i + Z.of_nat (len (v m) - S i)))
    with (len (v m) - 1) by lia.
  done.
Qed.

End RWMtxSliceFacts.

Section RWMtxSliceSteps.
Import RWMtx RWMtxSlice.
Context {T : Type} (zeroT : T).
Variable growcap : nat -> nat -> nat.
Implicit Types (s : RWMtx.t slice * gmap loc (list T)) (c : slice)
  (h : gmap loc (list T)).

(** Removing position [i] from the first [n] elements of a window. *)
Lemma remove_window (w : list T) n i :
  i < n -> n <= length w ->
  take (n - 1)
    (take i w ++ take (n - S i) (drop (S i) w) ++ drop (i + (n - S i)) w)
  = take i (take n w) ++ drop (S i) (take n w).
Proof.
  intros Hi Hn.
  rewrite take_take, (Nat.min_l i n) by lia.
  rewrite (take_drop_commute w (n - S i) (S i)).
  replace (S i + (n - S i)) with n by lia.
  rewrite app_assoc. apply take_app_length'.
  rewrite length_app, length_take, length_drop, length_take. lia.
Qed.

(** Arrays that a step keeps show the same elements through the same
    header. *)
Lemma keeps_elems h h' b c :
  keeps h h' b -> slice_ok h c -> base c <> b ->
  elems h' c = elems h c /\ slice_ok h' c.
Proof.
  unfold keeps, slice_ok, elems, array_of. intros Hk Hc Hne.
  destruct (base c) as [l|]; [|done].
  destruct Hc as (Hal & Hcap & Hlen).
  rewrite Hk by (try done; congruence). done.
Qed.

Lemma array_write_start h b o n k p data :
  array_write h (mkSlice b (o + p) n k) 0 data
  = array_write h (mkSlice b o (n + p) (k + p)) p data.
Proof. unfold array_write. cbn [base off]. by rewrite Nat.add_0_r. Qed.

Lemma slice_ok_base_Some h c : slice_ok h c -> 0 < len c -> is_Some (base c).
Proof.
  unfold slice_ok. destruct (base c); [by eauto|]. lia.
Qed.

Lemma contents_length s : guard_ok s -> length (contents s) = len (v (fst s)).
Proof. intros [_ Hok]. by apply elems_length. Qed.

(** [Remove] inside the slice: what is returned and what is left. *)
Lemma slice_Remove_step (i : nat) s :
  guard_ok s -> i < len (v (fst s)) ->
  exists s',
    Remove zeroT (Z.of_nat i) s = (Ret (default zeroT (contents s !! i)), s')
    /\ contents s' = take i (contents s) ++ drop (S i) (contents s)
    /\ guard_ok s'
    /\ keeps (snd s) (snd s') (base (v (fst s)))
    /\ base (v (fst s')) = base (v (fst s)).
Proof.
  intros [Hu Hok] Hi.
  assert (Hlc : len (v (fst s)) <= cap (v (fst s))).
  { revert Hok. unfold slice_ok. destruct (base _); lia. }
  rewrite slice_Remove_in_range by done. cbv zeta.
  destruct s as [[l g] h]. cbn [fst snd v mu] in *.
  eexists. split; [reflexivity|].
  set (data := take _ _).
  rewrite (array_write_start h (base g) (off g) (len g - i) (cap g - i) i).
  set (wr := mkSlice (base g) (off g) (len g - i + i) (cap g - i + i)).
  assert (Hwr : wr = g).
  { unfold wr. destruct g as [b o n k]. cbn [base off len cap] in *.
    f_equal; lia. }
  rewrite Hwr.
  assert (Hwin : len g <= length (drop (off g) (array_of h g))).
  { revert Hok. unfold slice_ok, array_of.
    destruct (base g); rewrite length_drop; lia. }
  assert (Hdata : data = take (len g - S i)
                           (drop (S i) (drop (off g) (array_of h g)))).
  { unfold data, elems, array_of. cbn [base off len].
    rewrite take_take, Nat.min_id, drop_drop. done. }
  assert (Hdl : length data = len g - S i).
  { rewrite Hdata, length_take, length_drop. lia. }
  split; [|split; [|split]].
  - unfold contents. cbn [fst snd v]. unfold elems at 1. cbn [off len].
    assert (Hsome : is_Some (base g))
      by (apply (slice_ok_base_Some h); [done|lia]).
    rewrite (array_write_same h g i data) by (rewrite ?Hdl; eauto with lia).
    rewrite Hdl, Hdata. unfold elems. by apply remove_window.
  - split; [apply unlocked_released|]. cbn [fst snd v].
    apply array_write_ok; [done|lia|].
    revert Hok. unfold slice_ok, array_of. cbn [base off len cap].
    destruct (base g); [|lia]. intros (? & ? & ?). split; [done|].
    split; [done|lia].
  - apply keeps_write.
  - done.
Qed.

Lemma slice_Append_step els s :
  guard_ok s ->
  exists s',
    Append zeroT growcap els s = (Ret tt, s')
    /\ contents s' = contents s ++ els
    /\ guard_ok s'
    /\ keeps (snd s) (snd s') (base (v (fst s)))
    /\ moved (snd s) (base (v (fst s))) (base (v (fst s'))).
Proof.
  intros [Hu Hok]. rewrite slice_Append_eq by done.
  destruct (slice_append_spec zeroT growcap (snd s) (v (fst s)) els Hok)
    as (He & Hok' & Hk & Hm & _).
  eexists. split; [reflexivity|]. unfold contents, guard_ok. cbn [fst snd v mu].
  split; [done|]. split; [|done]. split; [apply unlocked_released|done].
Qed.

Lemma slice_Unshift_step el s :
  guard_ok s ->
  exists s',
    Unshift zeroT growcap el s = (Ret tt, s')
    /\ contents s' = el :: contents s
    /\ guard_ok s'
    /\ keeps (snd s) (snd s') None
    /\ (exists l, base (v (fst s')) = Some l /\ snd s !! l = None).
Proof.
  intros [Hu Hok]. rewrite slice_Unshift_eq by done. cbv zeta.
  destruct s as [[l g] h]. cbn [fst snd v mu] in *.
  destruct (slice_lit_spec h [el]) as (Hle & Hlok & Hlb).
  set (lit := slice_lit [el] h) in *.
  destruct (slice_append_spec zeroT growcap (snd lit) (fst lit)
              (elems (snd lit) g) Hlok) as (He & Hok' & Hk & Hm & _).
  assert (Hg : elems (snd lit) g = elems h g) by by apply alloc_elems.
  eexists. split; [reflexivity|]. unfold contents, guard_ok. cbn [fst snd v mu].
  split; [by rewrite He, Hle, Hg|].
  split; [split; [apply unlocked_released|done]|].
  split.
  - intros l' Hl' _. rewrite Hk.
    + by apply (keeps_alloc h [el] None).
    + unfold lit, slice_lit; cbn [snd].
      rewrite lookup_insert_ne; [done|].
      intros <-. rewrite fresh_unallocated in Hl'. by destruct Hl'.
    + rewrite Hlb. intros [= <-]. rewrite fresh_unallocated in Hl'.
      by destruct Hl'.
  - destruct Hm as [Hm|(l' & Hm & Hn)].
    + eexists. rewrite Hm, Hlb. split; [done|apply fresh_unallocated].
    + exists l'. split; [done|]. revert Hn. unfold lit, slice_lit; cbn [snd].
      rewrite lookup_insert_None. tauto.
Qed.

Lemma slice_Clear_step s :
  unlocked (mu (fst s)) ->
  exists s',
    Clear zeroT s = (Ret tt, s')
    /\ contents s' = []
    /\ guard_ok s'
    /\ keeps (snd s) (snd s') None
    /\ (exists l, base (v (fst s')) = Some l /\ snd s !! l = None).
Proof.
  intros Hu. rewrite slice_Clear_eq by done.
  destruct (slice_make_spec zeroT (snd s) 0) as (He & Hok & Hb & _).
  eexists. split; [reflexivity|]. unfold contents, guard_ok. cbn [fst snd v mu].
  split; [done|]. split; [split; [apply unlocked_released|done]|].
  split; [apply keeps_alloc|].
  eexists. split; [done|apply fresh_unallocated].
Qed.

Lemma slice_Len_step s :
  guard_ok s ->
  exists s',
    Len s = (Ret (Z.of_nat (length (contents s))), s')
    /\ guard_ok s' /\ snd s' = snd s /\ v (fst s') = v (fst s).
Proof.
  intros [Hu Hok]. rewrite slice_Len_eq by done.
  eexists. unfold contents. rewrite elems_length by done.
  split; [reflexivity|]. split; [|done].
  split; [apply unlocked_released|done].
Qed.

(** [Clone]: a new array holding the elements; the guard and every array
    that was there are as before. *)
Lemma slice_Clone_step s :
  guard_ok s ->
  exists out s',
    Clone zeroT s = (Ret out, s')
    /\ elems (snd s') out = contents s
    /\ slice_ok (snd s') out
    /\ base out = Some (fresh (dom (snd s)))
    /\ v (fst s') = v (fst s)
    /\ contents s' = contents s
    /\ guard_ok s'
    /\ keeps (snd s) (snd s') None.
Proof.
  intros [Hu Hok]. rewrite slice_Clone_eq by done. cbv zeta.
  destruct s as [[l g] h]. cbn [fst snd v mu] in *.
  destruct (slice_make_spec zeroT h (len g)) as (He & Hmok & Hb & Hl & Hc & Ho).
  set (mk_ := slice_make zeroT (len g) h) in *.
  unfold slice_copy. cbn [snd]. rewrite Hl, Nat.min_id.
  assert (Hg1 : elems (snd mk_) g = elems h g) by by apply alloc_elems.
  assert (Hok1 : slice_ok (snd mk_) g) by by apply alloc_ok.
  rewrite take_ge by (rewrite elems_length; done).
  assert (Hne : base g <> base (fst mk_)).
  { rewrite Hb. intros Hg. revert Hok. unfold slice_ok. rewrite Hg.
    intros ([a Ha] & _). by rewrite fresh_unallocated in Ha. }
  assert (Hkw : keeps (snd mk_)
                  (array_write (snd mk_) (fst mk_) 0 (elems (snd mk_) g))
                  (base (fst mk_))) by apply keeps_write.
  destruct (keeps_elems _ _ _ g Hkw Hok1 Hne) as [Hge Hgok].
  eexists _, _. split; [reflexivity|]. unfold contents, guard_ok.
  cbn [fst snd v mu].
  split; [|split; [|split; [done|split; [done|split; [|split]]]]].
  - unfold elems at 1.
    rewrite (array_write_same (snd mk_) (fst mk_) 0)
      by (rewrite ?Hc, ?elems_length, ?Hb; eauto).
    rewrite take_0. cbn [app]. rewrite Hl.
    rewrite take_app_length' by (rewrite elems_length; done). done.
  - apply array_write_ok; [done| |done].
    rewrite Hc, elems_length by done. done.
  - by rewrite Hge, Hg1.
  - split; [apply unlocked_released|done].
  - intros l' Hl' _. rewrite Hkw.
    + by apply (keeps_alloc h (replicate (len g) zeroT) None).
    + unfold mk_, slice_make; cbn [snd]. rewrite lookup_insert_ne; [done|].
      intros <-. rewrite fresh_unallocated in Hl'. by destruct Hl'.
    + rewrite Hb. intros [= <-]. rewrite fresh_unallocated in Hl'.
      by destruct Hl'.
Qed.

End RWMtxSliceSteps.

Section RWMtxSliceFrames.
Import RWMtx RWMtxSlice.
Context {T : Type} (zeroT : T).
Variable growcap : nat -> nat -> nat.
Implicit Types (s : RWMtx.t slice * gmap loc (list T)) (c out : slice)
  (h : gmap loc (list T)).

Lemma keeps_weaken h h' b : keeps h h' None -> keeps h h' b.
Proof. intros Hk l Hl _. by apply Hk. Qed.

Lemma moved_fresh h b l : h !! l = None -> moved h b (Some l).
Proof. intros Hl. right. by exists l. Qed.

(** Every call on the guard leaves it well formed, writes only to the array
    the guard points at or to new arrays, and leaves the guard pointing at
    the same array or at a new one. *)
Lemma run_call_step s (c : call) :
  guard_ok s ->
  guard_ok (run_call zeroT growcap s c)
  /\ keeps (snd s) (snd (run_call zeroT growcap s c)) (base (v (fst s)))
  /\ moved (snd s) (base (v (fst s)))
       (base (v (fst (run_call zeroT growcap s c)))).
Proof.
  intros Hg. destruct c as [|i|els|el| |]; cbn [run_call].
  - destruct (slice_Clear_step zeroT s (proj1 Hg))
      as (s' & -> & _ & Hg' & Hk & l & Hl & Hn).
    cbn [snd]. split; [done|]. split; [by apply keeps_weaken|].
    rewrite Hl. by apply moved_fresh.
  - destruct (decide (0 <= i < Z.of_nat (len (v (fst s))))%Z) as [Hi|Hi].
    + destruct (slice_Remove_step zeroT (Z.to_nat i) s Hg ltac:(lia))
        as (s' & He & _ & Hg' & Hk & Hb).
      rewrite Z2Nat.id in He by lia. rewrite He. cbn [snd].
      split; [done|]. split; [done|]. by left.
    + rewrite slice_Remove_out_of_range by (try done; apply Hg).
      cbn [fst snd v]. split; [|split; [apply keeps_refl|by left]].
      split; [apply unlocked_released|apply Hg].
  - destruct (slice_Append_step zeroT growcap els s Hg)
      as (s' & -> & _ & Hg' & Hk & Hm). done.
  - destruct (slice_Unshift_step zeroT growcap el s Hg)
      as (s' & -> & _ & Hg' & Hk & l & Hl & Hn).
    cbn [snd]. split; [done|]. split; [by apply keeps_weaken|].
    rewrite Hl. by apply moved_fresh.
  - destruct (slice_Clone_step zeroT s Hg)
      as (out & s' & -> & _ & _ & _ & Hv & _ & Hg' & Hk).
    cbn [snd]. split; [done|]. split; [by apply keeps_weaken|].
    left. by rewrite Hv.
  - destruct (slice_Len_step s Hg) as (s' & -> & Hg' & Hh & Hv).
    cbn [snd]. rewrite Hh, Hv. split; [done|].
    split; [apply keeps_refl|by left].
Qed.

(** Seen as a sequence, each call on the guard does what the specification
    says of it. *)
Lemma run_call_contents s (c : call) :
  guard_ok s ->
  contents (run_call zeroT growcap s c) = seq_call (contents s) c.
Proof.
  intros Hg. destruct c as [|i|els|el| |]; cbn [run_call seq_call].
  - destruct (slice_Clear_step zeroT s (proj1 Hg)) as (s' & He & Hc & _).
    by rewrite He.
  - rewrite contents_length by done.
    case_decide as Hi.
    + destruct (slice_Remove_step zeroT (Z.to_nat i) s Hg ltac:(lia))
        as (s' & He & Hc & _).
      rewrite Z2Nat.id in He by lia. by rewrite He.
    + rewrite slice_Remove_out_of_range by (try done; apply Hg). done.
  - destruct (slice_Append_step zeroT growcap els s Hg) as (s' & He & Hc & _).
    by rewrite He.
  - destruct (slice_Unshift_step zeroT growcap el s Hg) as (s' & He & Hc & _).
    by rewrite He.
  - destruct (slice_Clone_step zeroT s Hg)
      as (out & s' & He & _ & _ & _ & _ & Hc & _).
    by rewrite He.
  - destruct (slice_Len_step s Hg) as (s' & He & _ & Hh & Hv).
    rewrite He. unfold contents. cbn [snd]. by rewrite Hh, Hv.
Qed.

(** An assignment through a well-formed slice, seen through that slice. *)
Lemma slice_assign_elems h out (j : Z) (x : T) :
  slice_ok h out ->
  elems (snd (slice_assign out j x h)) out = seq_assign (elems h out) j x
  /\ slice_ok (snd (slice_assign out j x h)) out
  /\ keeps h (snd (slice_assign out j x h)) (base out).
Proof.
  intros Hok. unfold slice_assign, seq_assign.
  rewrite (elems_length h out) by done.
  case_decide as Hj; cbn [snd]; [|by split; [|split; [|apply keeps_refl]]].
  assert (Hfit : Z.to_nat j + length [x] <= cap out).
  { revert Hok. unfold slice_ok. simpl. destruct (base out); lia. }
  split; [|split; [by apply array_write_ok|apply keeps_write]].
  assert (Hsome : is_Some (base out))
    by (apply (slice_ok_base_Some h); [done|lia]).
  unfold elems at 1.
  rewrite (array_write_same h out (Z.to_nat j) [x]) by eauto.
  assert (Hwin : len out <= length (drop (off out) (array_of h out))).
  { revert Hok. unfold slice_ok.
    destruct (base out); rewrite length_drop; lia. }
  unfold elems. set (w := drop (off out) (array_of h out)) in *.
  rewrite <- take_insert_lt by lia. f_equal.
  rewrite insert_take_drop by lia. simpl.
  by rewrite Nat.add_1_r.
Qed.

Lemma run_actions_cons out s (a : action) (acts : list action) :
  run_actions zeroT growcap out s (a :: acts)
  = run_actions zeroT growcap out (run_action zeroT growcap out s a) acts.
Proof. done. Qed.

Lemma seq_guard_cons (xs : list T) (a : action) (acts : list action) :
  seq_guard xs (a :: acts)
  = seq_guard (match a with OnGuard c => seq_call xs c | OnCopy _ _ => xs end)
      acts.
Proof. done. Qed.

Lemma seq_copy_cons (xs : list T) (a : action) (acts : list action) :
  seq_copy xs (a :: acts)
  = seq_copy (match a with OnGuard _ => xs | OnCopy j x => seq_assign xs j x end)
      acts.
Proof. done. Qed.

(** The guard and a slice on another array do not see each other: through
    any run of calls on the one and assignments through the other, the
    guard holds what the calls alone make of its sequence, and the slice
    what the assignments alone make of its own. *)
Lemma run_actions_apart (acts : list action) s out :
  guard_ok s -> slice_ok (snd s) out -> is_Some (base out) ->
  base out <> base (v (fst s)) ->
  contents (run_actions zeroT growcap out s acts)
  = seq_guard (contents s) acts
  /\ elems (snd (run_actions zeroT growcap out s acts)) out
    = seq_copy (elems (snd s) out) acts
  /\ guard_ok (run_actions zeroT growcap out s acts).
Proof.
  revert s. induction acts as [|a acts IH]; intros s Hg Hok Hsome Hne; [done|].
  rewrite run_actions_cons, seq_guard_cons, seq_copy_cons.
  destruct a as [c|j x]; cbn [run_action].
  - destruct (run_call_step s c Hg) as (Hg' & Hk & Hm).
    destruct (keeps_elems _ _ _ out Hk Hok Hne) as [He Hok'].
    destruct (IH (run_call zeroT growcap s c)) as (IHc & IHe & IHg); try done.
    + destruct Hm as [->|(l & -> & Hl)]; [done|].
      intros Hb. revert Hok. unfold slice_ok. rewrite Hb, Hl.
      by intros ([? [=]] & _).
    + by rewrite IHc, IHe, He, run_call_contents.
  - destruct (slice_assign_elems (snd s) out j x Hok) as (He & Hok' & Hk).
    destruct (keeps_elems _ _ _ (v (fst s)) Hk (proj2 Hg)) as [Heg Hokg];
      [congruence|].
    destruct (IH (fst s, snd (slice_assign out j x (snd s))))
      as (IHc & IHe & IHg); try done.
    + by split; [apply Hg|].
    + cbn [snd] in IHe. rewrite IHc, IHe, He. unfold contents at 1.
      cbn [fst snd]. by rewrite Heg.
Qed.

End RWMtxSliceFrames.

Section RWMtxSliceClaims.
Import RWMtx RWMtxSlice.
Context {T : Type} (zeroT : T).
Variable growcap : nat -> nat -> nat.
Implicit Types (s : RWMtx.t slice * gmap loc (list T)) (c out : slice)
  (h : gmap loc (list T)).

(** C5.  On a well-formed, unlocked slice guard, [Remove i] with [i < 0] or
    [i >= length] ends in a run-time panic (index out of range): it returns
    no value, and it has no error result to report the failure through.
    The deferred [Unlock] has run and the sequence is as it was. *)
Theorem Remove_out_of_bounds_panics (i : Z) s :
  guard_ok s ->
  (i < 0 \/ Z.of_nat (length (contents s)) <= i)%Z ->
  Remove zeroT i s =
    (Panic (IndexOutOfRange i (length (contents s))),
     (mk (released (mu (fst s)) [EvLock; EvUnlock]) (v (fst s)), snd s))
  /\ (forall x s', Remove zeroT i s <> (Ret x, s')).
Proof.
  intros Hg Hi. rewrite contents_length in * by done.
  rewrite slice_Remove_out_of_range by (try apply Hg; lia).
  split; [done|]. intros x s' [=].
Qed.

(** C6.  On a well-formed, unlocked slice guard holding [x0 .. x(n-1)],
    [Remove i] with [0 <= i < n] returns [xi] and leaves
    [x0 .. x(i-1), x(i+1) .. x(n-1)]: the elements before position [i] stay
    where they were and those after it move down by one. *)
Theorem Remove_in_bounds_shifts (i : Z) s :
  guard_ok s ->
  (0 <= i < Z.of_nat (length (contents s)))%Z ->
  exists x s',
    contents s !! Z.to_nat i = Some x
    /\ Remove zeroT i s = (Ret x, s')
    /\ contents s' = take (Z.to_nat i) (contents s)
                     ++ drop (S (Z.to_nat i)) (contents s)
    /\ length (contents s') = length (contents s) - 1
    /\ (forall j, j < Z.to_nat i -> contents s' !! j = contents s !! j)
    /\ (forall j, Z.to_nat i <= j -> contents s' !! j = contents s !! S j)
    /\ guard_ok s'.
Proof.
  intros Hg Hi.
  destruct (lookup_lt_is_Some_2 (contents s) (Z.to_nat i)) as [x Hx]; [lia|].
  rewrite contents_length in Hi by done.
  destruct (slice_Remove_step zeroT (Z.to_nat i) s Hg ltac:(lia))
    as (s' & He & Hc & Hg' & _).
  rewrite Z2Nat.id in He by lia. rewrite Hx in He. cbn [default] in He.
  assert (Hn : Z.to_nat i < length (contents s))
    by (rewrite contents_length by done; lia).
  exists x, s'. split; [done|]. split; [done|]. split; [done|].
  split; [|split; [|split; [|done]]].
  - rewrite Hc, length_app, length_take, length_drop. lia.
  - intros j Hj. rewrite Hc, lookup_app_l by (rewrite length_take; lia).
    by apply lookup_take_lt.
  - intros j Hj. rewrite Hc, lookup_app_r by (rewrite length_take; lia).
    rewrite lookup_drop, length_take. f_equal. lia.
Qed.

(** C7.  On a well-formed, unlocked slice guard, [Append els] puts [els], in
    their order, after the elements that were there, and [Unshift el] puts
    [el] at index 0 with every element that was there one index higher; a
    following [Clone] returns exactly that sequence. *)
Theorem Append_Unshift_keep_order (els : list T) (el : T) s :
  guard_ok s ->
  (exists s1 out s2,
     Append zeroT growcap els s = (Ret tt, s1)
     /\ contents s1 = contents s ++ els
     /\ guard_ok s1
     /\ Clone zeroT s1 = (Ret out, s2)
     /\ elems (snd s2) out = contents s ++ els)
  /\ (exists s1 out s2,
     Unshift zeroT growcap el s = (Ret tt, s1)
     /\ contents s1 = el :: contents s
     /\ (forall j, contents s1 !! S j = contents s !! j)
     /\ guard_ok s1
     /\ Clone zeroT s1 = (Ret out, s2)
     /\ elems (snd s2) out = el :: contents s).
Proof.
  intros Hg. split.
  - destruct (slice_Append_step zeroT growcap els s Hg)
      as (s1 & He & Hc & Hg1 & _).
    destruct (slice_Clone_step zeroT s1 Hg1) as (out & s2 & Hcl & Hout & _).
    exists s1, out, s2. by rewrite Hout, Hc.
  - destruct (slice_Unshift_step zeroT growcap el s Hg)
      as (s1 & He & Hc & Hg1 & _).
    destruct (slice_Clone_step zeroT s1 Hg1) as (out & s2 & Hcl & Hout & _).
    exists s1, out, s2. rewrite Hout, Hc.
    split; [done|]. split; [done|]. split; [by intros j|]. done.
Qed.

(** C9.  On a well-formed, unlocked slice guard, [Clone] returns a slice
    holding the guarded elements in a newly allocated array.  From then on,
    through any run of calls on the guard ([Clear], [Remove], [Append],
    [Unshift], [Clone], [Len]) and assignments to elements of the copy, in
    any order, the guard holds exactly what the calls alone make of its
    sequence, so does what a later [Clone] returns, and the copy holds
    exactly what the assignments alone make of the elements it was returned
    with. *)
Theorem Clone_is_independent s :
  guard_ok s ->
  exists out s1,
    Clone zeroT s = (Ret out, s1)
    /\ elems (snd s1) out = contents s
    /\ contents s1 = contents s
    /\ (exists l, base out = Some l /\ snd s !! l = None)
    /\ (forall acts : list action,
          let s2 := run_actions zeroT growcap out s1 acts in
          contents s2 = seq_guard (contents s) acts
          /\ elems (snd s2) out = seq_copy (contents s) acts
          /\ exists out' s3,
               Clone zeroT s2 = (Ret out', s3)
               /\ elems (snd s3) out' = seq_guard (contents s) acts).
Proof.
  intros Hg.
  destruct (slice_Clone_step zeroT s Hg)
    as (out & s1 & Hcl & Hout & Hok & Hb & Hv & Hc & Hg1 & Hk).
  assert (Hne : base out <> base (v (fst s1))).
  { rewrite Hv, Hb. intros Hbg. destruct Hg as [_ Hs]. revert Hs.
    unfold slice_ok. rewrite <- Hbg, fresh_unallocated.
    by intros ([? [=]] & _). }
  assert (Hsome : is_Some (base out)) by (rewrite Hb; by eexists).
  exists out, s1. split; [done|]. split; [done|]. split; [done|].
  split; [eexists; split; [done|apply fresh_unallocated]|].
  intros acts s2.
  destruct (run_actions_apart zeroT growcap acts s1 out)
    as (Hc2 & He2 & Hg2); try done.
  fold s2 in Hc2, He2, Hg2. rewrite Hc in Hc2. rewrite Hout in He2.
  split; [done|]. split; [done|].
  destruct (slice_Clone_step zeroT s2 Hg2) as (out' & s3 & Hcl' & Hout' & _).
  exists out', s3. by rewrite Hout', Hc2.
Qed.

(** With no call on the guard, whatever is assigned to the copy, the guard
    holds what it held; with no assignment to the copy, whatever is called
    on the guard, the copy holds what it was returned with. *)
Lemma seq_guard_only_copy (xs : list T) (ws : list (Z * T)) :
  seq_guard xs (map (fun w => OnCopy (fst w) (snd w)) ws) = xs.
Proof. revert xs. induction ws as [|w ws IH]; intros xs; [done|apply IH]. Qed.

Lemma seq_copy_only_guard (xs : list T) (cs : list call) :
  seq_copy xs (map OnGuard cs) = xs.
Proof. revert xs. induction cs as [|c cs IH]; intros xs; [done|apply IH]. Qed.

End RWMtxSliceClaims.

(** ** The claims about the scoped operations and about [Get] *)

Section ScopedClaims.
Import RWMtx.
Context {T W : Type}.

(** C8.  On an unlocked guard, [WithE] and [RWithE] return an error value
    exactly when the callback returned it, and it is that very value: none
    is swallowed, none is made up.  When they return, the mutex has been
    locked and released once, and what the callback did to the guarded
    value and to the rest of the program is kept, whether the error is nil
    or not. *)
Theorem fallible_scoped_pass_error_through (m : RWMtx.t T) (w : W) :
  unlocked (mu m) ->
  (forall (clb : M (T * W) error) (e : error) s',
     WithE clb (m, w) = (Ret e, s') <->
     exists x w', clb (v m, w) = (Ret e, (x, w'))
       /\ s' = (mk (released (mu m) [EvLock; EvUnlock]) x, w'))
  /\ (forall (clb : T -> M W error) (e : error) s',
     RWithE clb (m, w) = (Ret e, s') <->
     exists w', clb (v m) w = (Ret e, w')
       /\ s' = (mk (released (mu m) [EvRLock; EvRUnlock]) (v m), w')).
Proof.
  intros Hu. split.
  - intros clb e s'. rewrite WithE_eq by done.
    destruct (clb (v m, w)) as [[e'|p| |msg] [x w']]; split;
      try (intros [=]; subst; by eauto);
      try (intros (? & ? & [=] & ?); by subst).
  - intros clb e s'. rewrite RWithE_eq by done.
    destruct (clb (v m) w) as [[e'|p| |msg] w']; split;
      try (intros [=]; subst; by eauto);
      try (intros (? & [=] & ?); by subst).
Qed.

(** C10.  In every state, [RWith clb] ends as [RWithE] does on the wrapper
    that runs [clb] and returns nil, in the same final state, with the
    error dropped, and [With clb] stands to [WithE] in the same way; the
    error such a wrapper hands back is always nil.  Both are the scoped
    operations as the specification words them. *)
Theorem With_RWith_are_wrapped_fallible (s : RWMtx.t T * W) :
  (forall clb : T -> M W unit,
     RWith clb s =
       (discard (fst (RWithE (fun tx => clb tx ;;; ret nil_error) s)),
        snd (RWithE (fun tx => clb tx ;;; ret nil_error) s))
     /\ (forall e, fst (RWithE (fun tx => clb tx ;;; ret nil_error) s) = Ret e ->
                   e = nil_error)
     /\ RWith clb s = ReadScoped clb s)
  /\ (forall clb : M (T * W) unit,
     With clb s =
       (discard (fst (WithE (clb ;;; ret nil_error) s)),
        snd (WithE (clb ;;; ret nil_error) s))
     /\ (forall e, fst (WithE (clb ;;; ret nil_error) s) = Ret e ->
                   e = nil_error)
     /\ With clb s = WriteScoped clb s).
Proof.
  split; intros clb.
  - split; [apply RWith_discards|].
    split; [apply RWithE_wrapper_nil|apply RWith_ReadScoped].
  - split; [apply With_discards|].
    split; [apply WithE_wrapper_nil|apply With_WriteScoped].
Qed.

End ScopedClaims.

(** C2, as stated, fails on a map guard: [Get] is promoted from the embedded
    [RWMtx[map[K]V]] and returns the guarded map itself, so a store through
    the returned value, made with no lock held, changes what the guard
    holds. *)
Lemma Get_of_map_guard_is_not_a_copy :
  ~ Get_returns_copy Examples.map_guard_new.
Proof.
  intros Hcopy.
  pose proof (Hcopy (Some 1%positive) _ eq_refl "b" 2%Z _ eq_refl) as He.
  apply (f_equal (fun o => map_find o "b")) in He.
  vm_compute in He. discriminate He.
Qed.

(** ** The claims at the inputs of the package's tests *)

Section TestInputs.
Import RWMtx Examples.

Lemma map_guard_b_unlocked : unlocked (mu (fst map_guard_b)).
Proof. split; reflexivity. Defined.

Lemma slice_guard_123_ok : RWMtxSlice.guard_ok slice_guard_123.
Proof.
  split; [split; reflexivity|].
  unfold slice_ok. vm_compute. split; [eexists; reflexivity|].
  split; repeat constructor.
Defined.



Lemma Remove_out_of_bounds_panics_witness :
  fst (RWMtxSlice.Remove 0%Z 5%Z slice_guard_123)
  = Panic (IndexOutOfRange 5 3)
  /\ fst (RWMtxSlice.Remove 0%Z (-1)%Z slice_guard_123)
     = Panic (IndexOutOfRange (-1) 3).
Proof.
  split.
  - destruct (Remove_out_of_bounds_panics 0%Z 5%Z slice_guard_123
                slice_guard_123_ok) as [He _];
      [right; vm_compute; discriminate|].
    rewrite He. reflexivity.
  - destruct (Remove_out_of_bounds_panics 0%Z (-1)%Z slice_guard_123
                slice_guard_123_ok) as [He _];
      [left; reflexivity|].
    rewrite He. reflexivity.
Defined.

Lemma Remove_in_bounds_shifts_witness :
  exists s', RWMtxSlice.Remove 0%Z 1%Z slice_guard_123 = (Ret 2%Z, s')
    /\ RWMtxSlice.contents s' = [1; 3]%Z.
Proof.
  destruct (Remove_in_bounds_shifts 0%Z 1%Z slice_guard_123
              slice_guard_123_ok) as (x & s' & Hx & He & Hc & _);
    [split; [discriminate|reflexivity]|].
  exists s'. injection Hx as <-. split; assumption.
Defined.

Lemma Append_Unshift_keep_order_witness :
  (exists s1 out s2,
     RWMtxSlice.Append 0%Z grow_double [1; 2; 3]%Z (RWMtxSlice.zero_value, ∅)
     = (Ret tt, s1)
     /\ RWMtxSlice.Clone 0%Z s1 = (Ret out, s2)
     /\ elems (snd s2) out = [1; 2; 3]%Z)
  /\ (exists s1 out s2,
     RWMtxSlice.Unshift 0%Z grow_double 0%Z slice_guard_123 = (Ret tt, s1)
     /\ RWMtxSlice.Clone 0%Z s1 = (Ret out, s2)
     /\ elems (snd s2) out = [0; 1; 2; 3]%Z).
Proof.
  split.
  - destruct (Append_Unshift_keep_order 0%Z grow_double [1; 2; 3]%Z 0%Z
                (RWMtxSlice.zero_value, ∅))
      as ((s1 & out & s2 & He & _ & _ & Hcl & Hout) & _);
      [split; [split; reflexivity|repeat split]|].
    exists s1, out, s2. repeat split; assumption.
  - destruct (Append_Unshift_keep_order 0%Z grow_double [] 0%Z
                slice_guard_123 slice_guard_123_ok)
      as (_ & (s1 & out & s2 & He & _ & _ & _ & Hcl & Hout)).
    exists s1, out, s2. repeat split; assumption.
Defined.

Lemma Clone_is_independent_witness :
  exists out s1,
    RWMtxSlice.Clone 0%Z slice_guard_123 = (Ret out, s1)
    /\ elems (snd s1) out = [1; 2; 3]%Z
    /\ (let s2 := RWMtxSlice.run_actions 0%Z grow_double out s1
                    [RWMtxSlice.OnCopy 0%Z 99%Z;
                     RWMtxSlice.OnGuard (RWMtxSlice.CallRemove 0%Z);
                     RWMtxSlice.OnGuard (RWMtxSlice.CallAppend [7%Z])] in
        RWMtxSlice.contents s2 = [2; 3; 7]%Z
        /\ elems (snd s2) out = [99; 2; 3]%Z).
Proof.
  destruct (Clone_is_independent 0%Z grow_double slice_guard_123
              slice_guard_123_ok)
    as (out & s1 & Hcl & Hout & _ & _ & Hacts).
  exists out, s1. split; [assumption|]. split; [assumption|].
  destruct (Hacts [RWMtxSlice.OnCopy 0%Z 99%Z;
                   RWMtxSlice.OnGuard (RWMtxSlice.CallRemove 0%Z);
                   RWMtxSlice.OnGuard (RWMtxSlice.CallAppend [7%Z])])
    as (Hc & He & _).
  split; [rewrite Hc|rewrite He]; reflexivity.
Defined.

Lemma fallible_scoped_pass_error_through_witness :
  WithE set_then_fail value_guard_1
  = (Ret (Some "fail"),
     (mk (released zeroRWMutex [EvLock; EvUnlock]) 100%Z, tt))
  /\ RWithE just_fail value_guard_1
     = (Ret (Some "fail"),
        (mk (released zeroRWMutex [EvRLock; EvRUnlock]) 1%Z, tt)).
Proof.
  destruct (fallible_scoped_pass_error_through (NewRWMtx 1%Z) tt)
    as [Hw Hr]; [split; reflexivity|].
  split.
  - apply Hw. exists 100%Z, tt. split; reflexivity.
  - apply Hr. exists tt. split; reflexivity.
Defined.

Lemma With_RWith_are_wrapped_fallible_witness :
  With (fun '(_, w) => (Ret tt, (100%Z, w))) value_guard_1
  = WriteScoped (fun '(_, w) => (Ret tt, (100%Z, w))) value_guard_1
  /\ RWith (fun _ w => (Ret tt, w)) value_guard_1
     = ReadScoped (fun _ w => (Ret tt, w)) value_guard_1.
Proof.
  destruct (With_RWith_are_wrapped_fallible value_guard_1) as [Hr Hw].
  split; [apply Hw|apply Hr].
Defined.

End TestInputs.

(** ** The package's tests, run on the model *)

Section PackageTests.
Import RWMtx Examples.

(** TestRWMtx *)
Example TestRWMtx :
  fst ((a <- Get ;;
        With (fun '(_, w) => (Ret tt, (100%Z, w))) ;;;
        b <- Get ;;
        ret (a, b)) (NewRWMtx 42%Z, tt))
  = Ret (42%Z, 100%Z).
Proof. reflexivity. Qed.

(** TestRWMtxMap *)
Example TestRWMtxMap :
  fst ((RWMtxMap.Store "a" 1%Z ;;;
        r1 <- RWMtxMap.Load 0%Z "a" ;;
        RWMtxMap.Store "b" 2%Z ;;;
        RWMtxMap.Store "c" 3%Z ;;;
        n1 <- RWMtxMap.Len ;;
        RWMtxMap.Delete "a" ;;;
        r2 <- RWMtxMap.Load 0%Z "a" ;;
        r3 <- RWMtxMap.LoadAndDelete 0%Z "b" ;;
        n2 <- RWMtxMap.Len ;;
        r4 <- RWMtxMap.LoadAndDelete 0%Z "non-existent" ;;
        RWMtxMap.Clear ;;;
        n3 <- RWMtxMap.Len ;;
        ret (r1, n1, snd r2, r3, n2, snd r4, n3)) map_guard_new)
  = Ret ((1, true), 3, false, (2, true), 1, false, 0)%Z.
Proof. vm_compute. reflexivity. Qed.

(** TestRWMtx_WithE *)
Example TestRWMtx_WithE :
  fst (WithE (fun s => (Ret (Some "fail"), s)) value_guard_1)
  = Ret (Some "fail").
Proof. reflexivity. Qed.

(** TestRWMtxSlice_Unshift *)
Example TestRWMtxSlice_Unshift :
  RWMtxSlice.contents
    (snd ((RWMtxSlice.Append 0%Z grow_double [2; 3]%Z ;;;
           RWMtxSlice.Unshift 0%Z grow_double 1%Z)
            (RWMtxSlice.zero_value, ∅)))
  = [1; 2; 3]%Z.
Proof. vm_compute. reflexivity. Qed.

(** TestRWMtxSlice_Clear and TestRWMtxSlice_Len *)
Example TestRWMtxSlice_Clear_Len :
  (let r := (n1 <- RWMtxSlice.Len ;;
             RWMtxSlice.Clear 0%Z ;;;
             n2 <- RWMtxSlice.Len ;;
             out <- RWMtxSlice.Clone 0%Z ;;
             ret (n1, n2, out)) slice_guard_123 in
   match fst r with
   | Ret (n1, n2, out) => Some (n1, n2, elems (snd (snd r)) out)
   | _ => None
   end)
  = Some (3%Z, 0%Z, []).
Proof. vm_compute. reflexivity. Qed.

(** TestRWMtxSlice_Clone *)
Example TestRWMtxSlice_Clone :
  (let r := RWMtxSlice.Clone 0%Z slice_guard_123 in
   match fst r with
   | Ret clone =>
       let h := snd (slice_assign clone 0%Z 99%Z (snd (snd r))) in
       let r' := RWMtxSlice.Clone 0%Z (fst (snd r), h) in
       match fst r' with
       | Ret again => Some (elems h clone, elems (snd (snd r')) again)
       | _ => None
       end
   | _ => None
   end)
  = Some ([99; 2; 3]%Z, [1; 2; 3]%Z).
Proof. vm_compute. reflexivity. Qed.

(** TestRWMtxSlice_Each: the callback appends each element to a list of its
    own. *)
Example TestRWMtxSlice_Each :
  snd (snd (snd
    (RWMtxSlice.Each 0%Z (fun e '(h, acc) => (Ret tt, (h, acc ++ [e])))
       (fst slice_guard_123, (snd slice_guard_123, [])))))
  = [1; 2; 3]%Z.
Proof. vm_compute. reflexivity. Qed.

End PackageTests.

(** * Further properties of the code *)

(** ** The single-value guard *)

Section RWMtxMore.
Import RWMtx.
Context {T W : Type}.
Implicit Types (m : RWMtx.t T) (w : W).

Lemma released_released l evs evs' :
  released (released l evs) evs' = released l (evs ++ evs').
Proof. unfold released. cbn [history]. by rewrite <- app_assoc. Qed.

(** X1.  On an unlocked guard, [Set x] followed by [Get] returns [x]: the
    two calls return, the rest of the program is untouched, and the mutex
    has been taken and released once for writing and once for reading.  A
    guard made by [NewRWMtx x] answers [x] to [Get]. *)
Theorem Set_then_Get_reads_back (x : T) m w :
  unlocked (mu m) ->
  (exists s1 s2,
     Set_ x (m, w) = (Ret tt, s1)
     /\ Get s1 = (Ret x, s2)
     /\ snd s2 = w
     /\ v (fst s2) = x
     /\ mu (fst s2)
        = released (mu m) [EvLock; EvUnlock; EvRLock; EvRUnlock])
  /\ fst (Get (NewRWMtx x, w)) = Ret x.
Proof.
  intros Hu. split; [|done].
  eexists _, _. rewrite Set_eq by done. split; [reflexivity|].
  rewrite Get_eq by apply unlocked_released. cbn [fst snd v mu].
  split; [reflexivity|]. cbn [fst snd v mu].
  by rewrite released_released.
Qed.

(** X2.  On an unlocked guard, when the callback of [WithE], [With],
    [RWithE] or [RWith] panics, the call panics with the same value, the
    deferred unlock has run, so the mutex is free again, and what the
    callback did before panicking is kept; a following [Get] returns the
    value the callback left. *)
Theorem scoped_calls_release_on_panic m w (p : panic_value) :
  unlocked (mu m) ->
  (forall (clb : M (T * W) error) x w',
     clb (v m, w) = (Panic p, (x, w')) ->
     WithE clb (m, w)
     = (Panic p, (mk (released (mu m) [EvLock; EvUnlock]) x, w'))
     /\ fst (Get (snd (WithE clb (m, w)))) = Ret x)
  /\ (forall (clb : M (T * W) unit) x w',
     clb (v m, w) = (Panic p, (x, w')) ->
     With clb (m, w)
     = (Panic p, (mk (released (mu m) [EvLock; EvUnlock]) x, w'))
     /\ fst (Get (snd (With clb (m, w)))) = Ret x)
  /\ (forall (clb : T -> M W error) w',
     clb (v m) w = (Panic p, w') ->
     RWithE clb (m, w)
     = (Panic p, (mk (released (mu m) [EvRLock; EvRUnlock]) (v m), w')))
  /\ (forall (clb : T -> M W unit) w',
     clb (v m) w = (Panic p, w') ->
     RWith clb (m, w)
     = (Panic p, (mk (released (mu m) [EvRLock; EvRUnlock]) (v m), w'))).
Proof.
  intros Hu. split; [|split; [|split]].
  - intros clb x w' Hc. rewrite WithE_eq, Hc by done. split; [done|].
    cbn [snd]. by rewrite Get_eq by apply unlocked_released.
  - intros clb x w' Hc. rewrite With_eq, Hc by done. split; [done|].
    cbn [snd]. by rewrite Get_eq by apply unlocked_released.
  - intros clb w' Hc. by rewrite RWithE_eq, Hc.
  - intros clb w' Hc. by rewrite RWith_eq, Hc.
Qed.

(** X3.  While the mutex is held for writing, as it is while a callback of
    [With] or [WithE] runs, every method of the guard blocks: no callback
    is run and nothing changes.  While it is held for reading only, as it
    is while a callback of [RWith] or [RWithE] runs, [Set], [With] and
    [WithE] block in the same way, and [Get] still returns the value. *)
Theorem held_mutex_blocks_callers m w (x : T)
    (cw : M (T * W) error) (cu : M (T * W) unit)
    (rw : T -> M W error) (ru : T -> M W unit) :
  (writer (mu m) = true ->
     WithE cw (m, w) = (Blocked, (m, w))
     /\ With cu (m, w) = (Blocked, (m, w))
     /\ RWithE rw (m, w) = (Blocked, (m, w))
     /\ RWith ru (m, w) = (Blocked, (m, w))
     /\ Get (m, w) = (Blocked, (m, w))
     /\ Set_ x (m, w) = (Blocked, (m, w)))
  /\ (writer (mu m) = false -> 0 < readers (mu m) ->
     WithE cw (m, w) = (Blocked, (m, w))
     /\ With cu (m, w) = (Blocked, (m, w))
     /\ Set_ x (m, w) = (Blocked, (m, w))
     /\ Get (m, w)
        = (Ret (v m),
           (mk (mkRWMutex false (readers (mu m))
                  (history (mu m) ++ [EvRLock; EvRUnlock])) (v m), w))).
Proof.
  destruct m as [[wr rd hs] y]. cbn [mu writer readers history v].
  split.
  - intros ->.
    unfold WithE, With, RWithE, RWith, Get, Set_, bind, defer, on_mu,
      Lock, RLock; simpl. by repeat split.
  - intros -> Hr. destruct rd as [|rd]; [lia|].
    unfold WithE, With, Get, Set_, bind, defer, on_mu,
      Lock, RLock, RUnlock; simpl.
    rewrite <- app_assoc. by repeat split.
Qed.

End RWMtxMore.

(** ** The map guard *)

Section RWMtxMapMore.
Import RWMtx RWMtxMap.
Context {K : Type} `{Countable K} `{!Comparable K} {V : Type} (zeroV : V).
Implicit Types (s : RWMtx.t mapref * gmap loc (gomap K V)) (k : K) (x : V).

Lemma Len_size s :
  unlocked (mu (fst s)) ->
  fst (Len s) = Ret (Z.of_nat (map_count (entries s))).
Proof. intros Hu. by rewrite Len_eq. Qed.


Lemma Store_after k x s l :
  unlocked (mu (fst s)) -> v (fst s) = Some l ->
  fst (Store k x s) = Ret tt
  /\ unlocked (mu (fst (snd (Store k x s))))
  /\ v (fst (snd (Store k x s))) = Some l
  /\ entries (snd (Store k x s)) = map_put (entries s) k x
  /\ snd (snd (Store k x s)) = <[l := map_put (entries s) k x]> (snd s).
Proof.
  intros Hu Hl. rewrite Store_eq, Hl by done. unfold entries.
  cbn [fst snd v mu]. rewrite Hl.
  split; [done|]. split; [apply unlocked_released|]. split; [done|].
  split; [|done]. apply map_deref_assign.
Qed.

Lemma Delete_after k s :
  unlocked (mu (fst s)) ->
  fst (Delete k s) = Ret tt
  /\ unlocked (mu (fst (snd (Delete k s))))
  /\ v (fst (snd (Delete k s))) = v (fst s)
  /\ entries (snd (Delete k s)) = map_drop (entries s) k
  /\ snd (snd (Delete k s)) = map_delete (v (fst s)) k (snd s).
Proof.
  intros Hu. rewrite Delete_eq by done. unfold entries. cbn [fst snd v mu].
  split; [done|]. split; [apply unlocked_released|]. split; [done|].
  split; [|done]. apply map_deref_delete.
Qed.

Lemma LoadAndDelete_after k s :
  unlocked (mu (fst s)) ->
  unlocked (mu (fst (snd (LoadAndDelete zeroV k s))))
  /\ v (fst (snd (LoadAndDelete zeroV k s))) = v (fst s)
  /\ entries (snd (LoadAndDelete zeroV k s)) = map_drop (entries s) k
  /\ snd (snd (LoadAndDelete zeroV k s)) = map_delete (v (fst s)) k (snd s).
Proof.
  intros Hu. rewrite LoadAndDelete_eq by done. unfold entries.
  cbn [fst snd v mu].
  split; [apply unlocked_released|]. split; [done|].
  split; [|done]. apply map_deref_delete.
Qed.


(** X5.  On an unlocked map guard [Len] returns the number of entries.  On
    a map that is not nil, [Store] of a key that was absent makes it one
    more and [Store] of a key that was present leaves it as it was;
    [Delete] and [LoadAndDelete] of a key that was present make it one
    less, and of a key that was absent leave it as it was.  A key that is
    not equal to itself is always absent. *)
Theorem map_Len_counts_keys k x s :
  unlocked (mu (fst s)) ->
  fst (Len s) = Ret (Z.of_nat (map_count (entries s)))
  /\ (is_Some (v (fst s)) -> map_find (entries s) k = None ->
      fst (Len (snd (Store k x s)))
      = Ret (Z.of_nat (map_count (entries s)) + 1)%Z)
  /\ (is_Some (v (fst s)) -> is_Some (map_find (entries s) k) ->
      fst (Len (snd (Store k x s))) = Ret (Z.of_nat (map_count (entries s))))
  /\ (is_Some (map_find (entries s) k) ->
      fst (Len (snd (Delete k s)))
      = Ret (Z.of_nat (map_count (entries s)) - 1)%Z
      /\ fst (Len (snd (LoadAndDelete zeroV k s)))
         = Ret (Z.of_nat (map_count (entries s)) - 1)%Z)
  /\ (map_find (entries s) k = None ->
      fst (Len (snd (Delete k s))) = Ret (Z.of_nat (map_count (entries s)))
      /\ fst (Len (snd (LoadAndDelete zeroV k s)))
         = Ret (Z.of_nat (map_count (entries s))))
  /\ (self_equal k = false -> map_find (entries s) k = None).
Proof.
  intros Hu.
  destruct (Delete_after k s Hu) as (_ & Hud & _ & Hed & _).
  destruct (LoadAndDelete_after k s Hu) as (Hul & _ & Hel & _).
  split; [by apply Len_size|]. split; [|split; [|split; [|split]]].
  - intros [l Hl] Hk.
    destruct (Store_after k x s l Hu Hl) as (_ & Hus & _ & Hes & _).
    rewrite Len_size, Hes, map_count_put, Hk by done. f_equal. lia.
  - intros [l Hl] [y Hk].
    destruct (Store_after k x s l Hu Hl) as (_ & Hus & _ & Hes & _).
    by rewrite Len_size, Hes, map_count_put, Hk.
  - intros [y Hk]. pose proof (map_count_found _ _ _ Hk).
    rewrite !Len_size, Hed, Hel, map_count_drop, Hk by done.
    split; f_equal; lia.
  - intros Hk.
    by rewrite !Len_size, Hed, Hel, map_count_drop, Hk.
  - intros Hk. unfold map_find. by rewrite Hk.
Qed.



(** X8.  On an unlocked guard over the map object at [l], [Store],
    [Delete] and [LoadAndDelete] of key [k] leave every other key of the
    map as it was and every other map object untouched, so that a guard
    over another map holds the same entries as before; [Load] and [Len]
    leave the whole heap as it was. *)
Theorem map_calls_are_local k x s (l : loc) :
  unlocked (mu (fst s)) -> v (fst s) = Some l ->
  Forall (fun s' =>
            (forall k', k' <> k ->
               map_find (entries s') k' = map_find (entries s) k')
            /\ (forall l', l' <> l -> snd s' !! l' = snd s !! l')
            /\ (forall g : RWMtx.t mapref, v g <> Some l ->
                  entries (g, snd s') = entries (g, snd s)))
    [snd (Store k x s); snd (Delete k s); snd (LoadAndDelete zeroV k s)]
  /\ snd (snd (Load zeroV k s)) = snd s
  /\ snd (snd (Len s)) = snd s.
Proof.
  intros Hu Hl.
  assert (Hloc : forall (h' : gmap loc (gomap K V)) (e : gomap K V),
            h' = <[l := e]> (snd s) ->
            (forall l', l' <> l -> h' !! l' = snd s !! l')
            /\ (forall g : RWMtx.t mapref, v g <> Some l ->
                  entries (g, h') = entries (g, snd s))).
  { intros h' e ->. split.
    - intros l' Hne. by rewrite lookup_insert_ne.
    - intros g Hg. unfold entries, map_deref. cbn [fst snd].
      destruct (v g) as [l'|]; [|done].
      rewrite lookup_insert_ne; [done|congruence]. }
  destruct (Store_after k x s l Hu Hl) as (_ & _ & _ & Hes & Hhs).
  destruct (Delete_after k s Hu) as (_ & _ & _ & Hed & Hhd).
  destruct (LoadAndDelete_after k s Hu) as (_ & _ & Hel & Hhl).
  rewrite Hl in Hhd, Hhl. cbn [map_delete] in Hhd, Hhl.
  split; [|by rewrite Load_eq, Len_eq].
  repeat constructor.
  - intros k' Hne. by rewrite Hes, map_find_put_ne.
  - by apply (Hloc _ _ Hhs).
  - by apply (Hloc _ _ Hhs).
  - intros k' Hne. by rewrite Hed, map_find_drop_ne.
  - by apply (Hloc _ _ Hhd).
  - by apply (Hloc _ _ Hhd).
  - intros k' Hne. by rewrite Hel, map_find_drop_ne.
  - by apply (Hloc _ _ Hhl).
  - by apply (Hloc _ _ Hhl).
Qed.

(** X9.  On an unlocked map guard [LoadAndDelete k] returns what [Load k]
    returns and leaves the heap as [Load k] followed by [Delete k] leaves
    it, under one write lock where the two calls take the read lock and
    then the write lock. *)
Theorem LoadAndDelete_is_Load_then_Delete k s :
  unlocked (mu (fst s)) ->
  fst (LoadAndDelete zeroV k s)
  = fst ((r <- Load zeroV k ;; Delete k ;;; ret r) s)
  /\ snd (snd (LoadAndDelete zeroV k s))
     = snd (snd ((r <- Load zeroV k ;; Delete k ;;; ret r) s))
  /\ v (fst (snd (LoadAndDelete zeroV k s)))
     = v (fst (snd ((r <- Load zeroV k ;; Delete k ;;; ret r) s)))
  /\ mu (fst (snd (LoadAndDelete zeroV k s)))
     = released (mu (fst s)) [EvLock; EvUnlock]
  /\ mu (fst (snd ((r <- Load zeroV k ;; Delete k ;;; ret r) s)))
     = released (mu (fst s)) [EvRLock; EvRUnlock; EvLock; EvUnlock].
Proof.
  intros Hu. unfold bind at 1 3 5 7. rewrite Load_eq by done.
  unfold bind, ret. rewrite Delete_eq by apply unlocked_released.
  rewrite LoadAndDelete_eq by done. cbn [fst snd v mu].
  by rewrite released_released.
Qed.


End RWMtxMapMore.


(** ** The slice guard *)

Section RWMtxSliceMore.
Import RWMtx RWMtxSlice.
Context {T : Type} (zeroT : T).
Variable growcap : nat -> nat -> nat.
Implicit Types (s : RWMtx.t slice * gmap loc (list T)) (c out : slice)
  (h : gmap loc (list T)).

Lemma run_calls_cons s (c : call) (cs : list call) :
  run_calls zeroT growcap s (c :: cs)
  = run_calls zeroT growcap (run_call zeroT growcap s c) cs.
Proof. done. Qed.

Lemma zero_value_ok h : guard_ok (zero_value, h) /\ contents (zero_value, h) = [].
Proof. by repeat split. Qed.

Lemma run_calls_refine (cs : list call) s :
  guard_ok s ->
  guard_ok (run_calls zeroT growcap s cs)
  /\ contents (run_calls zeroT growcap s cs) = foldl seq_call (contents s) cs.
Proof.
  revert s. induction cs as [|c cs IH]; intros s Hg; [done|].
  rewrite run_calls_cons. cbn [foldl].
  destruct (run_call_step zeroT growcap s c Hg) as (Hg' & _).
  destruct (IH _ Hg') as [IHg IHc].
  split; [done|]. by rewrite IHc, run_call_contents.
Qed.

(** X11.  Any run of calls on a well-formed, unlocked slice guard ([Clear],
    [Remove], [Append], [Unshift], [Clone], [Len], a [Remove] that panics
    being recovered from) leaves the guard well formed and unlocked, holding
    the sequence the same operations make of a plain list, and [Len] then
    returns its length.  The zero value of the struct is such a guard, over
    the empty sequence. *)
Theorem calls_refine_plain_sequence (cs : list call) s :
  guard_ok s ->
  guard_ok (run_calls zeroT growcap s cs)
  /\ contents (run_calls zeroT growcap s cs) = foldl seq_call (contents s) cs
  /\ fst (Len (run_calls zeroT growcap s cs))
     = Ret (Z.of_nat (length (foldl seq_call (contents s) cs)))
  /\ (forall h,
        guard_ok (zero_value, h)
        /\ contents (run_calls zeroT growcap (zero_value, h) cs)
           = foldl seq_call [] cs).
Proof.
  intros Hg. destruct (run_calls_refine cs s Hg) as [Hg' Hc].
  split; [done|]. split; [done|]. split.
  - destruct (slice_Len_step _ Hg') as (s' & -> & _). by rewrite Hc.
  - intros h. destruct (zero_value_ok h) as [Hz Hzc]. split; [done|].
    destruct (run_calls_refine cs _ Hz) as [_ ->]. by rewrite Hzc.
Qed.

(** Arrays that a step keeps, all of them, show the same elements through
    every well-formed header. *)
Lemma keeps_all_elems h h' c :
  keeps h h' None -> slice_ok h c -> elems h' c = elems h c /\ slice_ok h' c.
Proof.
  intros Hk Hc. destruct (base c) as [l|] eqn:Hb.
  - apply (keeps_elems h h' None); [done|done|by rewrite Hb].
  - revert Hc. unfold slice_ok, elems, array_of. by rewrite Hb.
Qed.

(** X12.  On an unlocked slice guard, whatever its header, [Clear] returns
    and leaves a well-formed guard over the empty sequence: [Len] then
    returns 0 and [Clone] returns an empty slice. *)
Theorem slice_Clear_empties s :
  unlocked (mu (fst s)) ->
  exists s',
    Clear zeroT s = (Ret tt, s')
    /\ guard_ok s'
    /\ contents s' = []
    /\ fst (Len s') = Ret 0%Z
    /\ exists out s'', Clone zeroT s' = (Ret out, s'')
         /\ elems (snd s'') out = [] /\ len out = 0.
Proof.
  intros Hu.
  destruct (slice_Clear_step zeroT s Hu) as (s' & He & Hc & Hg & _).
  exists s'. split; [done|]. split; [done|]. split; [done|]. split.
  - destruct (slice_Len_step s' Hg) as (s'' & -> & _). by rewrite Hc.
  - destruct (slice_Clone_step zeroT s' Hg) as (out & s'' & Hcl & Hout & Hok & _).
    exists out, s''. split; [done|]. rewrite Hout, Hc. split; [done|].
    rewrite <- (elems_length (snd s'') out) by done. by rewrite Hout, Hc.
Qed.

(** X13.  On a well-formed, unlocked slice guard, [Unshift], [Clear] and
    [Clone] never write to an array that existed: through every well-formed
    slice held elsewhere, the header [Get] returned before among them, the
    elements are those seen before the call. *)
Theorem Unshift_Clear_Clone_write_no_old_array (el : T) s c :
  guard_ok s -> slice_ok (snd s) c ->
  elems (snd (snd (Unshift zeroT growcap el s))) c = elems (snd s) c
  /\ elems (snd (snd (Clear zeroT s))) c = elems (snd s) c
  /\ elems (snd (snd (Clone zeroT s))) c = elems (snd s) c
  /\ elems (snd (snd (Unshift zeroT growcap el s))) (v (fst s)) = contents s
  /\ elems (snd (snd (Clear zeroT s))) (v (fst s)) = contents s.
Proof.
  intros Hg Hc.
  destruct (slice_Unshift_step zeroT growcap el s Hg) as (s1 & -> & _ & _ & Hk1 & _).
  destruct (slice_Clear_step zeroT s (proj1 Hg)) as (s2 & -> & _ & _ & Hk2 & _).
  destruct (slice_Clone_step zeroT s Hg)
    as (out & s3 & -> & _ & _ & _ & _ & _ & _ & Hk3).
  cbn [snd]. unfold contents.
  split; [by apply (keeps_all_elems _ _ c Hk1)|].
  split; [by apply (keeps_all_elems _ _ c Hk2)|].
  split; [by apply (keeps_all_elems _ _ c Hk3)|].
  split; [apply (keeps_all_elems _ _ _ Hk1), Hg
         |apply (keeps_all_elems _ _ _ Hk2), Hg].
Qed.

(** X14.  On a well-formed, unlocked slice guard, [Unshift el] followed by
    [Remove 0] returns [el], and [Append [x]] followed by [Remove] at the
    old length returns [x]; either way the guard holds the sequence it held
    before the two calls. *)
Theorem Unshift_Append_then_Remove_undo (el x : T) s :
  guard_ok s ->
  (exists s1 s2,
     Unshift zeroT growcap el s = (Ret tt, s1)
     /\ Remove zeroT 0%Z s1 = (Ret el, s2)
     /\ contents s2 = contents s)
  /\ (exists s1 s2,
     Append zeroT growcap [x] s = (Ret tt, s1)
     /\ Remove zeroT (Z.of_nat (length (contents s))) s1 = (Ret x, s2)
     /\ contents s2 = contents s).
Proof.
  intros Hg. split.
  - destruct (slice_Unshift_step zeroT growcap el s Hg)
      as (s1 & He & Hc & Hg1 & _).
    destruct (slice_Remove_step zeroT 0 s1 Hg1) as (s2 & Hr & Hc2 & _).
    { rewrite <- contents_length by done. rewrite Hc. simpl. lia. }
    exists s1, s2. split; [done|]. rewrite Hc in Hr, Hc2. by split.
  - destruct (slice_Append_step zeroT growcap [x] s Hg)
      as (s1 & He & Hc & Hg1 & _).
    destruct (slice_Remove_step zeroT (length (contents s)) s1 Hg1)
      as (s2 & Hr & Hc2 & _).
    { rewrite <- contents_length by done. rewrite Hc, length_app. simpl. lia. }
    exists s1, s2. split; [done|]. rewrite Hc in Hr, Hc2.
    rewrite lookup_app_r, Nat.sub_diag in Hr by done. split; [done|].
    rewrite Hc2, take_app_length, drop_app_ge by lia.
    replace (S (length (contents s)) - length (contents s)) with 1 by lia.
    by rewrite app_nil_r.
Qed.

End RWMtxSliceMore.

Section RWMtxSliceTraversal.
Import RWMtx RWMtxSlice.
Context {T L : Type} (zeroT : T).
Implicit Types (s : RWMtx.t slice * gmap loc (list T)) (g : slice)
  (h : gmap loc (list T)) (f : T -> L -> outcome unit * L).

(** Position [i] of a well-formed slice is position [off + i] of its array. *)
Lemma elems_lookup h g i :
  i < len g -> elems h g !! i = array_of h g !! (off g + i).
Proof.
  intros Hi. unfold elems. by rewrite lookup_take_lt, lookup_drop.
Qed.

Lemma range_loop_visit f g h (n i : nat) (l : L) :
  slice_ok h g -> i + n <= len g ->
  range_loop zeroT (visitor f) g i n (h, l)
  = (fst (visit_all f (take n (drop i (elems h g))) l),
     (h, snd (visit_all f (take n (drop i (elems h g))) l))).
Proof.
  intros Hok. revert i l. induction n as [|n IH]; intros i l Hn.
  - by rewrite take_0.
  - destruct (lookup_lt_is_Some_2 (elems h g) i) as [x Hx].
    { rewrite elems_length by done. lia. }
    rewrite (drop_S _ x) by done. cbn [take visit_all range_loop].
    unfold bind at 1. unfold get at 1. cbn [fst].
    rewrite <- elems_lookup, Hx by lia. cbn [default id].
    unfold bind, visitor at 1.
    destruct (f x l) as [[[]|p| |msg] l']; try done.
    apply IH. lia.
Qed.

Lemma visit_all_returning (k : L -> T -> L) (xs : list T) (l : L) :
  visit_all (fun e l' => (Ret tt, k l' e)) xs l = (Ret tt, foldl k l xs).
Proof. revert l. induction xs as [|x xs IH]; intros l; [done|apply IH]. Qed.

(** X15.  On a well-formed, unlocked slice guard, [Each] with a callback
    that leaves the heap alone calls it on the guarded elements in order,
    under one read lock, and stops at the first call that does not return:
    after a return or a panic the lock has been released and the panic is
    passed on, and the heap and the guard are as before.  With a callback
    that always returns, its state ends as the fold of the callback over
    the sequence. *)
Theorem Each_visits_in_order f s (l : L) :
  guard_ok s ->
  Each zeroT (visitor f) (fst s, (snd s, l)) =
    match visit_all f (contents s) l with
    | (Ret _, l') =>
        (Ret tt, (mk (released (mu (fst s)) [EvRLock; EvRUnlock]) (v (fst s)),
                  (snd s, l')))
    | (Panic p, l') =>
        (Panic p, (mk (released (mu (fst s)) [EvRLock; EvRUnlock]) (v (fst s)),
                   (snd s, l')))
    | (Blocked, l') =>
        (Blocked, (mk (read_held (mu (fst s))) (v (fst s)), (snd s, l')))
    | (Fatal msg, l') =>
        (Fatal msg, (mk (read_held (mu (fst s))) (v (fst s)), (snd s, l')))
    end
  /\ (forall k : L -> T -> L,
        Each zeroT (visitor (fun e l' => (Ret tt, k l' e))) (fst s, (snd s, l))
        = (Ret tt, (mk (released (mu (fst s)) [EvRLock; EvRUnlock]) (v (fst s)),
                    (snd s, foldl k l (contents s))))).
Proof.
  intros [Hu Hok].
  assert (Hgen : forall f',
    Each zeroT (visitor f') (fst s, (snd s, l)) =
    match visit_all f' (contents s) l with
    | (Ret _, l') =>
        (Ret tt, (mk (released (mu (fst s)) [EvRLock; EvRUnlock]) (v (fst s)),
                  (snd s, l')))
    | (Panic p, l') =>
        (Panic p, (mk (released (mu (fst s)) [EvRLock; EvRUnlock]) (v (fst s)),
                   (snd s, l')))
    | (Blocked, l') =>
        (Blocked, (mk (read_held (mu (fst s))) (v (fst s)), (snd s, l')))
    | (Fatal msg, l') =>
        (Fatal msg, (mk (read_held (mu (fst s))) (v (fst s)), (snd s, l')))
    end).
  { intros f'. unfold Each. rewrite RWith_eq by done.
    rewrite range_loop_visit by (try done; lia).
    rewrite drop_0, take_ge by (rewrite elems_length; done).
    unfold contents.
    by destruct (visit_all f' (elems (snd s) (v (fst s))) l)
      as [[[]|p| |msg] l']. }
  split; [apply Hgen|].
  intros k. by rewrite Hgen, visit_all_returning.
Qed.

End RWMtxSliceTraversal.

Section RWMtxSliceStorage.
Import RWMtx RWMtxSlice.
Context {T : Type} (zeroT : T).
Variable growcap : nat -> nat -> nat.
Implicit Types (s : RWMtx.t slice * gmap loc (list T)) (g : slice)
  (h : gmap loc (list T)).

Lemma dom_array_write h g p data :
  slice_ok h g -> dom (array_write h g p data) = dom h.
Proof.
  unfold slice_ok, array_write. destruct (base g) as [l|]; [|done].
  intros (Hal & _). by apply dom_insert_lookup_L.
Qed.

(** X16.  On a well-formed, unlocked slice guard, [Clone] returns a slice
    that is never nil, with length and capacity both the number of guarded
    elements, on an array that did not exist; its only effect on the heap is
    that one new array, holding exactly the guarded elements. *)
Theorem Clone_allocates_exactly s :
  guard_ok s ->
  exists l,
    snd s !! l = None
    /\ Clone zeroT s =
         (Ret (mkSlice (Some l) 0 (length (contents s)) (length (contents s))),
          (mk (released (mu (fst s)) [EvRLock; EvRUnlock]) (v (fst s)),
           <[l := contents s]> (snd s))).
Proof.
  intros Hg. pose proof (contents_length s Hg) as Hlen. destruct Hg as [Hu Hok].
  exists (fresh (dom (snd s))). split; [apply fresh_unallocated|].
  rewrite slice_Clone_eq by done. cbv zeta.
  unfold slice_make, slice_copy, array_write. cbn [fst snd base off len].
  rewrite lookup_insert_eq, insert_insert_eq. cbn [default Nat.add id].
  rewrite Nat.min_id.
  rewrite (alloc_elems (snd s)) by done.
  rewrite take_0, take_ge by (rewrite elems_length; done). cbn [app].
  rewrite drop_ge, app_nil_r
    by (rewrite length_replicate, elems_length; done).
  by rewrite Hlen.
Qed.

(** Removing position [i] from the first [n] elements of a window, seen
    through the first [n] elements still. *)
Lemma remove_window_stale (w : list T) n i :
  i < n -> n <= length w ->
  take n (take i w ++ take (n - S i) (drop (S i) w) ++ drop (i + (n - S i)) w)
  = take i (take n w) ++ drop (S i) (take n w) ++ drop (n - 1) (take n w).
Proof.
  intros Hi Hn.
  rewrite take_take, (Nat.min_l i n) by lia.
  rewrite (take_drop_commute w (n - S i) (S i)).
  replace (S i + (n - S i)) with n by lia.
  replace (i + (n - S i)) with (n - 1) by lia.
  rewrite take_app, take_app.
  rewrite (take_ge (take i w)) by (rewrite length_take; lia).
  rewrite (take_ge (drop (S i) (take n w)))
    by (rewrite length_take, length_drop, length_take; lia).
  rewrite length_take, length_drop, length_take.
  replace (n - i `min` length w - (n `min` length w - S i)) with 1 by lia.
  f_equal. f_equal.
  rewrite (take_drop_commute w 1 (n - 1)).
  by replace (n - 1 + 1) with n by lia.
Qed.

(** What [Remove] inside the slice does to the header and to the heap. *)
Lemma slice_Remove_storage (i : nat) s :
  guard_ok s -> i < length (contents s) ->
  base (v (fst (snd (Remove zeroT (Z.of_nat i) s)))) = base (v (fst s))
  /\ off (v (fst (snd (Remove zeroT (Z.of_nat i) s)))) = off (v (fst s))
  /\ cap (v (fst (snd (Remove zeroT (Z.of_nat i) s)))) = cap (v (fst s))
  /\ len (v (fst (snd (Remove zeroT (Z.of_nat i) s)))) = len (v (fst s)) - 1
  /\ dom (snd (snd (Remove zeroT (Z.of_nat i) s))) = dom (snd s)
  /\ elems (snd (snd (Remove zeroT (Z.of_nat i) s))) (v (fst s))
     = take i (contents s) ++ drop (S i) (contents s)
       ++ drop (length (contents s) - 1) (contents s).
Proof.
  intros Hg Hi. rewrite contents_length in * by done. destruct Hg as [Hu Hok].
  assert (Hlc : len (v (fst s)) <= cap (v (fst s))).
  { revert Hok. unfold slice_ok. destruct (base _); lia. }
  rewrite slice_Remove_in_range by done. cbv zeta.
  destruct s as [[l g] h]. cbn [fst snd v mu base off len cap] in *.
  split; [done|]. split; [done|]. split; [done|]. split; [done|].
  set (data := take _ _).
  rewrite (array_write_start h (base g) (off g) (len g - i) (cap g - i) i).
  set (wr := mkSlice (base g) (off g) (len g - i + i) (cap g - i + i)).
  assert (Hwr : wr = g).
  { unfold wr. destruct g as [b o n k]. cbn [base off len cap] in *.
    f_equal; lia. }
  rewrite Hwr.
  assert (Hwin : len g <= length (drop (off g) (array_of h g))).
  { revert Hok. unfold slice_ok, array_of.
    destruct (base g); rewrite length_drop; lia. }
  assert (Hdata : data = take (len g - S i)
                           (drop (S i) (drop (off g) (array_of h g)))).
  { unfold data, elems, array_of. cbn [base off len].
    rewrite take_take, Nat.min_id, drop_drop. done. }
  assert (Hdl : length data = len g - S i).
  { rewrite Hdata, length_take, length_drop. lia. }
  split; [by apply dom_array_write|].
  unfold contents. cbn [fst snd v]. unfold elems at 1.
  assert (Hsome : is_Some (base g))
    by (apply (slice_ok_base_Some h); [done|lia]).
  rewrite (array_write_same h g i data) by (rewrite ?Hdl; eauto with lia).
  rewrite Hdl, Hdata. unfold elems. by apply remove_window_stale.
Qed.

(** X17.  On a well-formed, unlocked slice guard, [Remove] inside the slice
    works in place: the guard keeps its array, its start and its capacity,
    and no array is allocated.  The slot freed at the end is not cleared:
    through the header the guard had before (as returned by an earlier
    [Get]), the shifted elements are followed by the old last element once
    more. *)
Theorem Remove_shifts_in_place (i : nat) s :
  guard_ok s -> i < length (contents s) ->
  base (v (fst (snd (Remove zeroT (Z.of_nat i) s)))) = base (v (fst s))
  /\ off (v (fst (snd (Remove zeroT (Z.of_nat i) s)))) = off (v (fst s))
  /\ cap (v (fst (snd (Remove zeroT (Z.of_nat i) s)))) = cap (v (fst s))
  /\ len (v (fst (snd (Remove zeroT (Z.of_nat i) s)))) = len (v (fst s)) - 1
  /\ dom (snd (snd (Remove zeroT (Z.of_nat i) s))) = dom (snd s)
  /\ elems (snd (snd (Remove zeroT (Z.of_nat i) s))) (v (fst s))
     = take i (contents s) ++ drop (S i) (contents s)
       ++ drop (length (contents s) - 1) (contents s).
Proof. apply slice_Remove_storage. Qed.

(** X18.  On a well-formed, unlocked slice guard, [Remove] inside the slice
    followed by [Append] of one element reuses the freed slot: both calls
    return, the guard ends with the very header it started with, no array
    is allocated, and the guard holds the shifted elements followed by the
    new one. *)
Theorem Remove_then_Append_reuses_slot (i : nat) (x : T) s :
  guard_ok s -> i < length (contents s) ->
  exists y s1 s2,
    Remove zeroT (Z.of_nat i) s = (Ret y, s1)
    /\ Append zeroT growcap [x] s1 = (Ret tt, s2)
    /\ v (fst s2) = v (fst s)
    /\ dom (snd s2) = dom (snd s)
    /\ contents s2 = take i (contents s) ++ drop (S i) (contents s) ++ [x].
Proof.
  intros Hg Hi. pose proof Hi as Hi'. rewrite contents_length in Hi' by done.
  assert (Hlc : len (v (fst s)) <= cap (v (fst s))).
  { destruct Hg as [_ Hok]. revert Hok. unfold slice_ok.
    destruct (base (v (fst s))); lia. }
  destruct (slice_Remove_storage i s Hg Hi)
    as (Hb & Ho & Hc & Hl & Hd & _).
  destruct (slice_Remove_step zeroT i s Hg Hi')
    as (s1 & Hr & Hc1 & Hg1 & _).
  rewrite Hr in Hb, Ho, Hc, Hl, Hd. cbn [snd] in *.
  destruct (slice_Append_step zeroT growcap [x] s1 Hg1)
    as (s2 & Ha & Hc2 & _).
  eexists. exists s1, s2. split; [done|]. split; [done|].
  rewrite slice_Append_eq in Ha by apply Hg1.
  injection Ha as <-. cbn [fst snd v].
  unfold slice_append. cbn [length].
  rewrite decide_True by lia. cbn [fst snd].
  split; [|split].
  - rewrite Hb, Ho, Hc, Hl. destruct (v (fst s)) as [b o n k].
    cbn [base off len cap] in *. f_equal. lia.
  - rewrite dom_array_write by apply Hg1. done.
  - revert Hc2. unfold contents. cbn [fst snd v]. unfold slice_append.
    cbn [length]. rewrite decide_True by lia. cbn [fst snd].
    intros ->. fold (contents s1). by rewrite Hc1, <- app_assoc.
Qed.

(** X19.  On a well-formed, unlocked slice guard, [Append] writes in place
    when the capacity allows: the guard keeps its array, start and capacity
    and no array is allocated.  Otherwise it moves the guard to an array
    that did not exist, with the window at its start, and writes to no
    array that existed: every well-formed slice held elsewhere shows the
    elements it showed. *)
Theorem Append_in_place_or_moves (els : list T) s :
  guard_ok s ->
  (len (v (fst s)) + length els <= cap (v (fst s)) ->
     base (v (fst (snd (Append zeroT growcap els s)))) = base (v (fst s))
     /\ off (v (fst (snd (Append zeroT growcap els s)))) = off (v (fst s))
     /\ cap (v (fst (snd (Append zeroT growcap els s)))) = cap (v (fst s))
     /\ dom (snd (snd (Append zeroT growcap els s))) = dom (snd s))
  /\ (cap (v (fst s)) < len (v (fst s)) + length els ->
     (exists l, base (v (fst (snd (Append zeroT growcap els s)))) = Some l
        /\ snd s !! l = None)
     /\ off (v (fst (snd (Append zeroT growcap els s)))) = 0
     /\ len (v (fst s)) + length els
        <= cap (v (fst (snd (Append zeroT growcap els s))))
     /\ forall c, slice_ok (snd s) c ->
          elems (snd (snd (Append zeroT growcap els s))) c = elems (snd s) c).
Proof.
  intros [Hu Hok]. rewrite slice_Append_eq by done. cbn [fst snd v].
  unfold slice_append. split; intros Hfit.
  - rewrite decide_True by done. cbn [fst snd base off cap].
    split; [done|]. split; [done|]. split; [done|].
    by apply dom_array_write.
  - rewrite decide_False by lia. cbn [fst snd base off cap].
    split; [eexists; split; [done|apply fresh_unallocated]|].
    split; [done|]. split; [lia|].
    intros c Hc. by apply alloc_elems.
Qed.

End RWMtxSliceStorage.

(** ** The further properties at the inputs of the package's tests *)

Section MoreTestInputs.
Import RWMtx Examples.

Lemma Set_then_Get_reads_back_witness :
  exists s1 s2,
    Set_ 7%Z value_guard_1 = (Ret tt, s1) /\ Get s1 = (Ret 7%Z, s2).
Proof.
  destruct (Set_then_Get_reads_back 7%Z (NewRWMtx 1%Z) tt)
    as ((s1 & s2 & Hs & Hg & _) & _); [split; reflexivity|].
  exists s1, s2. split; assumption.
Defined.

Lemma scoped_calls_release_on_panic_witness :
  WithE (fun '(_, w) => (Panic (UserPanic "boom"), (100%Z, w))) value_guard_1
  = (Panic (UserPanic "boom"),
     (mk (released zeroRWMutex [EvLock; EvUnlock]) 100%Z, tt)).
Proof.
  destruct (scoped_calls_release_on_panic (NewRWMtx 1%Z) tt (UserPanic "boom"))
    as (Hw & _); [split; reflexivity|].
  apply (Hw (fun '(_, w) => (Panic (UserPanic "boom"), (100%Z, w))) 100%Z tt).
  reflexivity.
Defined.

Lemma held_mutex_blocks_callers_witness :
  Set_ 5%Z (mk (mkRWMutex true 0 [EvLock]) 1%Z, tt)
  = (Blocked, (mk (mkRWMutex true 0 [EvLock]) 1%Z, tt))
  /\ With (fun '(_, w) => (Ret tt, (100%Z, w)))
       (mk (mkRWMutex false 1 [EvRLock]) 1%Z, tt)
     = (Blocked, (mk (mkRWMutex false 1 [EvRLock]) 1%Z, tt)).
Proof.
  split.
  - apply (proj1 (held_mutex_blocks_callers
                    (mk (mkRWMutex true 0 [EvLock]) 1%Z) tt 5%Z
                    (fun s => (Ret None, s)) (fun s => (Ret tt, s))
                    (fun _ w => (Ret None, w)) (fun _ w => (Ret tt, w)))).
    reflexivity.
  - apply (proj2 (held_mutex_blocks_callers
                    (mk (mkRWMutex false 1 [EvRLock]) 1%Z) tt 5%Z
                    (fun s => (Ret None, s))
                    (fun '(_, w) => (Ret tt, (100%Z, w)))
                    (fun _ w => (Ret None, w)) (fun _ w => (Ret tt, w))));
      [reflexivity|repeat constructor].
Defined.

Lemma map_Len_counts_keys_witness :
  fst (RWMtxMap.Len map_guard_b) = Ret 1%Z
  /\ fst (RWMtxMap.Len (snd (RWMtxMap.Store "a" 1%Z map_guard_b))) = Ret 2%Z
  /\ fst (RWMtxMap.Len (snd (RWMtxMap.Delete "b" map_guard_b))) = Ret 0%Z.
Proof.
  destruct (map_Len_counts_keys 0%Z "a" 1%Z map_guard_b map_guard_b_unlocked)
    as (Hl & Hs & _).
  destruct (map_Len_counts_keys 0%Z "b" 1%Z map_guard_b map_guard_b_unlocked)
    as (_ & _ & _ & Hd & _).
  split; [rewrite Hl; reflexivity|]. split.
  - rewrite Hs; [reflexivity|eexists; reflexivity|reflexivity].
  - destruct Hd as [Hd _]; [eexists; reflexivity|]. rewrite Hd. reflexivity.
Defined.



Lemma map_calls_are_local_witness :
  map_find (RWMtxMap.entries (snd (RWMtxMap.Store "a" 1%Z map_guard_b))) "b"
  = Some 2%Z.
Proof.
  destruct (map_calls_are_local 0%Z "a" 1%Z map_guard_b 1%positive
              map_guard_b_unlocked eq_refl) as (Hall & _).
  inversion Hall as [|? ? (Hk & _) _]. rewrite Hk; [reflexivity|discriminate].
Defined.

Lemma LoadAndDelete_is_Load_then_Delete_witness :
  fst (RWMtxMap.LoadAndDelete 0%Z "b" map_guard_b)
  = fst ((r <- RWMtxMap.Load 0%Z "b" ;; RWMtxMap.Delete "b" ;;; ret r)
           map_guard_b).
Proof.
  apply (LoadAndDelete_is_Load_then_Delete 0%Z "b" map_guard_b
           map_guard_b_unlocked).
Defined.


Lemma calls_refine_plain_sequence_witness :
  RWMtxSlice.contents
    (run_calls 0%Z grow_double slice_guard_123
       [RWMtxSlice.CallRemove 1%Z; RWMtxSlice.CallRemove 9%Z;
        RWMtxSlice.CallAppend [7%Z]; RWMtxSlice.CallUnshift 0%Z])
  = [0; 1; 3; 7]%Z.
Proof.
  destruct (calls_refine_plain_sequence 0%Z grow_double
              [RWMtxSlice.CallRemove 1%Z; RWMtxSlice.CallRemove 9%Z;
               RWMtxSlice.CallAppend [7%Z]; RWMtxSlice.CallUnshift 0%Z]
              slice_guard_123 slice_guard_123_ok) as (_ & Hc & _).
  rewrite Hc. reflexivity.
Defined.

Lemma slice_Clear_empties_witness :
  exists s', RWMtxSlice.Clear 0%Z slice_guard_123 = (Ret tt, s')
    /\ fst (RWMtxSlice.Len s') = Ret 0%Z.
Proof.
  destruct (slice_Clear_empties 0%Z slice_guard_123)
    as (s' & Hc & _ & _ & Hl & _); [split; reflexivity|].
  exists s'. split; assumption.
Defined.

Lemma Unshift_Clear_Clone_write_no_old_array_witness :
  elems (snd (snd (RWMtxSlice.Unshift 0%Z grow_double 0%Z slice_guard_123)))
    (v (fst slice_guard_123)) = [1; 2; 3]%Z
  /\ elems (snd (snd (RWMtxSlice.Clear 0%Z slice_guard_123)))
       (v (fst slice_guard_123)) = [1; 2; 3]%Z.
Proof.
  destruct (Unshift_Clear_Clone_write_no_old_array 0%Z grow_double 0%Z
              slice_guard_123 (v (fst slice_guard_123)) slice_guard_123_ok
              (proj2 slice_guard_123_ok)) as (_ & _ & _ & Hu & Hc).
  split; [rewrite Hu|rewrite Hc]; reflexivity.
Defined.

Lemma Unshift_Append_then_Remove_undo_witness :
  (exists s1 s2,
     RWMtxSlice.Unshift 0%Z grow_double 0%Z slice_guard_123 = (Ret tt, s1)
     /\ RWMtxSlice.Remove 0%Z 0%Z s1 = (Ret 0%Z, s2)
     /\ RWMtxSlice.contents s2 = [1; 2; 3]%Z)
  /\ (exists s1 s2,
     RWMtxSlice.Append 0%Z grow_double [4%Z] slice_guard_123 = (Ret tt, s1)
     /\ RWMtxSlice.Remove 0%Z 3%Z s1 = (Ret 4%Z, s2)
     /\ RWMtxSlice.contents s2 = [1; 2; 3]%Z).
Proof.
  destruct (Unshift_Append_then_Remove_undo 0%Z grow_double 0%Z 4%Z
              slice_guard_123 slice_guard_123_ok)
    as ((s1 & s2 & Hu & Hr & Hc) & (t1 & t2 & Ha & Hr' & Hc')).
  split; [exists s1, s2|exists t1, t2]; repeat split; assumption.
Defined.

Lemma Each_visits_in_order_witness :
  snd (snd (snd
    (RWMtxSlice.Each 0%Z (visitor (fun e acc => (Ret tt, acc ++ [e])))
       (fst slice_guard_123, (snd slice_guard_123, [])))))
  = [1; 2; 3]%Z.
Proof.
  destruct (Each_visits_in_order 0%Z (fun e acc => (Ret tt, acc ++ [e]))
              slice_guard_123 [] slice_guard_123_ok) as [_ Hk].
  rewrite (Hk (fun acc e => acc ++ [e])). reflexivity.
Defined.

Lemma Clone_allocates_exactly_witness :
  exists l,
    fst (RWMtxSlice.Clone 0%Z slice_guard_123) = Ret (mkSlice (Some l) 0 3 3).
Proof.
  destruct (Clone_allocates_exactly 0%Z slice_guard_123 slice_guard_123_ok)
    as (l & _ & Hc).
  exists l. rewrite Hc. reflexivity.
Defined.

Lemma Remove_shifts_in_place_witness :
  elems (snd (snd (RWMtxSlice.Remove 0%Z 1%Z slice_guard_123)))
    (v (fst slice_guard_123))
  = [1; 3; 3]%Z.
Proof.
  destruct (Remove_shifts_in_place 0%Z 1 slice_guard_123 slice_guard_123_ok)
    as (_ & _ & _ & _ & _ & He); [repeat constructor|].
  exact He.
Defined.

Lemma Remove_then_Append_reuses_slot_witness :
  exists y s1 s2,
    RWMtxSlice.Remove 0%Z 1%Z slice_guard_123 = (Ret y, s1)
    /\ RWMtxSlice.Append 0%Z grow_double [9%Z] s1 = (Ret tt, s2)
    /\ v (fst s2) = v (fst slice_guard_123)
    /\ RWMtxSlice.contents s2 = [1; 3; 9]%Z.
Proof.
  destruct (Remove_then_Append_reuses_slot 0%Z grow_double 1 9%Z
              slice_guard_123 slice_guard_123_ok)
    as (y & s1 & s2 & Hr & Ha & Hv & _ & Hc); [repeat constructor|].
  exists y, s1, s2. repeat split; assumption.
Defined.

Lemma Append_in_place_or_moves_witness :
  base (v (fst (snd (RWMtxSlice.Append 0%Z grow_double [4%Z] slice_guard_123))))
  <> base (v (fst slice_guard_123))
  /\ elems (snd (snd (RWMtxSlice.Append 0%Z grow_double [4%Z] slice_guard_123)))
       (v (fst slice_guard_123)) = [1; 2; 3]%Z.
Proof.
  destruct (Append_in_place_or_moves 0%Z grow_double [4%Z] slice_guard_123
              slice_guard_123_ok) as [_ Hm].
  destruct Hm as ((l & Hb & Hn) & _ & _ & He); [repeat constructor|].
  split.
  - rewrite Hb. intros Heq. vm_compute in Heq. injection Heq as ->.
    vm_compute in Hn. discriminate Hn.
  - rewrite (He _ (proj2 slice_guard_123_ok)). reflexivity.
Defined.

End MoreTestInputs.

(** ** What the methods hand out *)

Section HandedOut.
Import RWMtx RWMtxSlice.
Context {T L : Type} (zeroT : T).
Implicit Types (s : RWMtx.t slice * gmap loc (list T)).

(** [Each] hands the guarded elements, by value and in order, to its
    callback. *)
Lemma Each_visitor_results (f : T -> L -> outcome unit * L) s (l : L) :
  guard_ok s ->
  fst (Each zeroT (visitor f) (fst s, (snd s, l)))
  = fst (visit_all f (contents s) l)
  /\ snd (snd (snd (Each zeroT (visitor f) (fst s, (snd s, l)))))
     = snd (visit_all f (contents s) l)
  /\ fst (snd (snd (Each zeroT (visitor f) (fst s, (snd s, l))))) = snd s.
Proof.
  intros [Hu Hok]. unfold Each. rewrite RWith_eq by done.
  rewrite range_loop_visit by (try done; lia).
  rewrite drop_0, take_ge by (rewrite elems_length; done).
  unfold contents.
  by destruct (visit_all f (elems (snd s) (v (fst s))) l)
    as [[[]|p| |msg] l'].
Qed.

End HandedOut.

(** C2, amended.  Scoped callbacks aside, every method other than [Get]
    hands out only element values, counts or a new copy: on an unlocked map
    guard [Load] and [LoadAndDelete] return the element stored under the
    key, or the zero value, and a flag, and [Len] returns the number of
    entries; on a well-formed, unlocked slice guard [Remove] returns the
    element at the index or panics, [Len] returns the length, [Each] hands
    the elements by value and in order to its callback, and [Clone] returns
    the elements in an array that did not exist before and that the guard
    does not point at.  [Get] returns the value the guard holds, as Go
    copies a value of its type, and changes nothing but the history of the
    mutex: for a map guard that value is the guarded map itself, and a
    store through it is put in the guarded map (a later [Load] of a key
    equal to itself returns it); for a slice guard it is the guarded
    header, and an assignment through it changes the guarded sequence. *)
Theorem only_Get_hands_out_guarded_storage :
  (forall (T W : Type) (m : RWMtx.t T) (w : W),
     unlocked (RWMtx.mu m) ->
     RWMtx.Get (m, w) =
       (Ret (RWMtx.v m),
        (RWMtx.mk (released (RWMtx.mu m) [EvRLock; EvRUnlock]) (RWMtx.v m), w)))
  /\ (forall (K : Type) `(Countable K) `(!Comparable K) (V : Type) (zeroV : V)
        (s : RWMtxMap.state (K := K) (V := V)) (l : loc) (k : K) (x : V),
     unlocked (RWMtx.mu (fst s)) -> RWMtx.v (fst s) = Some l ->
     exists s1 h',
       RWMtx.Get s = (Ret (Some l), s1)
       /\ map_assign (Some l) k x (snd s1) = (Ret tt, h')
       /\ RWMtxMap.entries (fst s1, h') = map_put (RWMtxMap.entries s) k x
       /\ (self_equal k = true ->
           fst (RWMtxMap.Load zeroV k (fst s1, h')) = Ret (x, true)))
  /\ (forall (T : Type) (s : RWMtxSlice.state (T := T)) (j : Z) (x : T),
     RWMtxSlice.guard_ok s ->
     exists s1,
       RWMtx.Get s = (Ret (RWMtx.v (fst s)), s1)
       /\ RWMtxSlice.contents
            (fst s1, snd (slice_assign (RWMtx.v (fst s)) j x (snd s1)))
          = RWMtxSlice.seq_assign (RWMtxSlice.contents s) j x)
  /\ (forall (K : Type) `(Countable K) `(!Comparable K) (V : Type) (zeroV : V)
        (s : RWMtxMap.state (K := K) (V := V)) (k : K),
     unlocked (RWMtx.mu (fst s)) ->
     fst (RWMtxMap.Load zeroV k s)
     = Ret (match map_find (RWMtxMap.entries s) k with
            | Some x => (x, true)
            | None => (zeroV, false)
            end)
     /\ fst (RWMtxMap.LoadAndDelete zeroV k s) = fst (RWMtxMap.Load zeroV k s)
     /\ fst (RWMtxMap.Len s)
        = Ret (Z.of_nat (map_count (RWMtxMap.entries s))))
  /\ (forall (T : Type) (zeroT : T) (s : RWMtxSlice.state (T := T)) (i : Z),
     RWMtxSlice.guard_ok s ->
     ((0 <= i < Z.of_nat (length (RWMtxSlice.contents s)))%Z ->
        exists x, RWMtxSlice.contents s !! Z.to_nat i = Some x
                  /\ fst (RWMtxSlice.Remove zeroT i s) = Ret x)
     /\ (~ (0 <= i < Z.of_nat (length (RWMtxSlice.contents s)))%Z ->
        fst (RWMtxSlice.Remove zeroT i s)
        = Panic (IndexOutOfRange i (length (RWMtxSlice.contents s))))
     /\ fst (RWMtxSlice.Len s)
        = Ret (Z.of_nat (length (RWMtxSlice.contents s))))
  /\ (forall (T L : Type) (zeroT : T) (s : RWMtxSlice.state (T := T))
        (f : T -> L -> outcome unit * L) (l : L),
     RWMtxSlice.guard_ok s ->
     fst (RWMtxSlice.Each zeroT (visitor f) (fst s, (snd s, l)))
     = fst (visit_all f (RWMtxSlice.contents s) l)
     /\ snd (snd (snd (RWMtxSlice.Each zeroT (visitor f) (fst s, (snd s, l)))))
        = snd (visit_all f (RWMtxSlice.contents s) l)
     /\ fst (snd (snd (RWMtxSlice.Each zeroT (visitor f) (fst s, (snd s, l)))))
        = snd s)
  /\ (forall (T : Type) (zeroT : T) (s : RWMtxSlice.state (T := T)),
     RWMtxSlice.guard_ok s ->
     exists out s1 l,
       RWMtxSlice.Clone zeroT s = (Ret out, s1)
       /\ elems (snd s1) out = RWMtxSlice.contents s
       /\ base out = Some l
       /\ snd s !! l = None
       /\ base (RWMtx.v (fst s1)) <> Some l).
Proof.
  split; [|split; [|split; [|split; [|split; [|split]]]]].
  - intros T W m w Hu. by apply Get_eq.
  - intros K ? ? ? V zeroV [m h] l k x Hu Hl. cbn [fst snd] in *.
    rewrite Get_eq by done. rewrite Hl. eexists _, _.
    split; [reflexivity|]. split; [reflexivity|]. cbn [fst snd].
    assert (He : RWMtxMap.entries
              (RWMtx.mk (released (RWMtx.mu m) [EvRLock; EvRUnlock]) (Some l),
               <[l := map_put (map_deref h (Some l)) k x]> h)
            = map_put (RWMtxMap.entries (m, h)) k x).
    { unfold RWMtxMap.entries. cbn [fst snd RWMtx.v].
      rewrite map_deref_assign. by rewrite Hl. }
    split; [exact He|]. intros Hk.
    rewrite Load_eq by apply unlocked_released. cbn [fst].
    by rewrite map_index_entries, He, map_find_put_eq.
  - intros T [m h] j x [Hu Hok]. cbn [fst snd] in *.
    rewrite Get_eq by done. eexists. split; [reflexivity|].
    unfold RWMtxSlice.contents. cbn [fst snd RWMtx.v].
    by destruct (slice_assign_elems h (RWMtx.v m) j x Hok) as (-> & _).
  - intros K ? ? ? V zeroV s k Hu.
    by rewrite Load_eq, LoadAndDelete_eq, Len_eq.
  - intros T zeroT s i Hg. split; [|split].
    + intros Hi.
      destruct (lookup_lt_is_Some_2 (RWMtxSlice.contents s) (Z.to_nat i))
        as [x Hx]; [lia|].
      rewrite contents_length in Hi by done.
      destruct (slice_Remove_step zeroT (Z.to_nat i) s Hg ltac:(lia))
        as (s' & He & _).
      rewrite Z2Nat.id in He by lia. rewrite Hx in He.
      exists x. split; [done|]. by rewrite He.
    + intros Hi. rewrite contents_length in * by done.
      by rewrite slice_Remove_out_of_range by (try done; apply Hg).
    + by destruct (slice_Len_step s Hg) as (s' & -> & _).
  - intros T L zeroT s f l Hg. by apply Each_visitor_results.
  - intros T zeroT s Hg.
    destruct (slice_Clone_step zeroT s Hg)
      as (out & s1 & Hcl & Hout & _ & Hb & Hv & _).
    exists out, s1, (fresh (dom (snd s))).
    split; [done|]. split; [done|]. split; [done|].
    split; [apply fresh_unallocated|].
    rewrite Hv. intros Hbg. destruct Hg as [_ Hs]. revert Hs.
    unfold slice_ok. rewrite Hbg, fresh_unallocated. by intros ([? [=]] & _).
Qed.

Lemma only_Get_hands_out_guarded_storage_witness :
  fst (RWMtx.Get Examples.value_guard_1) = Ret 1%Z
  /\ (exists s1 h',
        RWMtx.Get Examples.map_guard_new = (Ret (Some 1%positive), s1)
        /\ map_assign (Some 1%positive) "b" 2%Z (snd s1) = (Ret tt, h')
        /\ fst (RWMtxMap.Load 0%Z "b" (fst s1, h')) = Ret (2%Z, true))
  /\ (exists s1,
        RWMtx.Get Examples.slice_guard_123
        = (Ret (RWMtx.v (fst Examples.slice_guard_123)), s1)
        /\ RWMtxSlice.contents
             (fst s1,
              snd (slice_assign (RWMtx.v (fst Examples.slice_guard_123))
                     0%Z 99%Z (snd s1)))
           = [99; 2; 3]%Z)
  /\ fst (RWMtxMap.Load 0%Z "b" Examples.map_guard_b) = Ret (2%Z, true)
  /\ fst (RWMtxSlice.Remove 0%Z 1%Z Examples.slice_guard_123) = Ret 2%Z
  /\ (exists out s1,
        RWMtxSlice.Clone 0%Z Examples.slice_guard_123 = (Ret out, s1)
        /\ base out <> base (RWMtx.v (fst s1))).
Proof.
  destruct only_Get_hands_out_guarded_storage
    as (Hget & Hmap & Hslice & Hload & Hrem & _ & Hclone).
  split; [|split; [|split; [|split; [|split]]]].
  - unfold Examples.value_guard_1.
    rewrite (Hget Z unit (RWMtx.NewRWMtx 1%Z) tt);
      [reflexivity|split; reflexivity].
  - destruct (Hmap string _ _ _ Z 0%Z Examples.map_guard_new 1%positive
                "b" 2%Z)
      as (s1 & h' & Hg & Ha & _ & Hl); [split; reflexivity|reflexivity|].
    exists s1, h'. split; [assumption|]. split; [assumption|].
    apply Hl. reflexivity.
  - destruct (Hslice Z Examples.slice_guard_123 0%Z 99%Z slice_guard_123_ok)
      as (s1 & Hg & Hc).
    exists s1. split; [assumption|]. rewrite Hc. reflexivity.
  - destruct (Hload string _ _ _ Z 0%Z Examples.map_guard_b "b"
                map_guard_b_unlocked) as (Hl & _).
    rewrite Hl. reflexivity.
  - destruct (Hrem Z 0%Z Examples.slice_guard_123 1%Z slice_guard_123_ok)
      as (Hin & _).
    destruct Hin as (x & Hx & Hr); [split; [discriminate|reflexivity]|].
    rewrite Hr. injection Hx as <-. reflexivity.
  - destruct (Hclone Z 0%Z Examples.slice_guard_123 slice_guard_123_ok)
      as (out & s1 & l & Hcl & _ & Hb & _ & Hne).
    exists out, s1. split; [assumption|]. rewrite Hb. congruence.
Defined.
